(** * YOLO post-processing of deepplantphenomics

    A shallow embedding of the object-detection post-processing code of
    [deepplantphenomics/deepplantpheno.py]: the coordinate conversion
    ([__yolo_coord_convert]), the prediction filter
    ([__yolo_filter_predictions]), the mean-average-precision evaluator
    ([__yolo_map]), the intersection over union ([__compute_iou]) and the
    patched decoding of [forward_pass_with_interpreted_outputs].

    NumPy's float64 arrays are lists of binary64 floats ([PrimFloat.float]),
    so that 0/0, comparisons with NaN and rounding behave as they do in the
    program.  Python integers are [Z]; [//] and [%] are [Z.div] and
    [Z.modulo], which round the same way. *)

From Stdlib Require Import ZArith List Bool Lia Arith PeanoNat Sorted Floats.
Import ListNotations.

(** Decimal literals denote the nearest binary64 value, as in Python. *)
Set Warnings "-inexact-float".

(** ** Outcomes of a call *)

(** A call returns a value, raises an exception, or (for the single
    [while] loop whose termination depends on the data) is still running
    when the fuel given to the model is used up. *)
Inductive outcome (A : Type) : Type :=
| Returned (a : A)
| Raised
| Unfinished.

Arguments Returned {A} a.
Arguments Raised {A}.
Arguments Unfinished {A}.

Definition bind {A B : Type} (m : outcome A) (k : A -> outcome B) : outcome B :=
  match m with
  | Returned a => k a
  | Raised => Raised
  | Unfinished => Unfinished
  end.

Notation "x <- m ;; k" := (bind m (fun x => k))
  (at level 61, m at next level, right associativity).

(** Indexing a Python list or an array out of range raises. *)
Definition index {A : Type} (l : list A) (i : nat) : outcome A :=
  match nth_error l i with
  | Some a => Returned a
  | None => Raised
  end.

Fixpoint mapM {A B : Type} (f : A -> outcome B) (l : list A) : outcome (list B) :=
  match l with
  | [] => Returned []
  | a :: l' => b <- f a ;; bs <- mapM f l' ;; Returned (b :: bs)
  end.

(** ** NumPy and Python primitives *)

(** [np.maximum] and [np.minimum] on two scalars: NaN in the first
    argument wins, otherwise the comparison decides. *)
Definition np_maximum (a b : float) : float :=
  if is_nan a then a else if (b <? a)%float then a else b.

Definition np_minimum (a b : float) : float :=
  if is_nan a then a else if (a <? b)%float then a else b.

(** Conversion of a Python integer to float64 (round to nearest even). *)
Definition float_of_int (z : Z) : float :=
  SF2Prim (binary_normalize prec emax z 0 false).

(** [a / b] on Python integers: true division, [ZeroDivisionError] on 0. *)
Definition py_truediv (a b : Z) : outcome float :=
  if (b =? 0)%Z then Raised else Returned (float_of_int a / float_of_int b)%float.

(** [int(x)] on a float: truncation towards zero; NaN and the infinities
    raise. *)
Definition py_int (x : float) : outcome Z :=
  match Prim2SF x with
  | S754_zero _ => Returned 0%Z
  | S754_finite s m e =>
      let mag := match e with
                 | Zneg p => Z.shiftr (Zpos m) (Zpos p)
                 | _ => Z.shiftl (Zpos m) e
                 end in
      Returned (if s then (- mag)%Z else mag)
  | _ => Raised
  end.

(** [np.argmax] over a float vector: the first index of the maximum, a
    NaN counting as the maximum; an empty vector raises. *)
Fixpoint argmax_scan (mp : float) (max_ind i : nat) (ip : list float) : nat :=
  match ip with
  | [] => max_ind
  | x :: ip' =>
      if is_nan mp then max_ind
      else if (x <=? mp)%float then argmax_scan mp max_ind (S i) ip'
      else argmax_scan x i (S i) ip'
  end.

Definition np_argmax (ip : list float) : outcome nat :=
  match ip with
  | [] => Raised
  | x :: ip' => Returned (argmax_scan x 0 1 ip')
  end.

(** The order NumPy sorts floats by: NaN after every number. *)
Definition np_lt (a b : float) : bool :=
  (a <? b)%float || (is_nan b && negb (is_nan a)).

(** [np.argsort] (default kind).  NumPy's introsort finishes every
    partition of at most 16 elements by the insertion sort below, which
    moves an index left while its key is smaller than its neighbour's, so
    equal keys keep their order.  [sorted] is kept back to front: its head
    is the index with the largest key so far. *)
Fixpoint insert_left (v : nat -> float) (vi : nat) (sorted : list nat) : list nat :=
  match sorted with
  | [] => [vi]
  | vk :: rest =>
      if np_lt (v vi) (v vk) then vk :: insert_left v vi rest
      else vi :: sorted
  end.

Definition np_argsort (keys : list float) : list nat :=
  rev (fold_left (fun sorted vi => insert_left (fun i => nth i keys nan) vi sorted)
                 (seq 0 (length keys)) []).

(** [arr[mask]]: the elements whose mask entry is true. *)
Fixpoint boolean_index {A : Type} (arr : list A) (mask : list bool) : list A :=
  match arr, mask with
  | a :: arr', m :: mask' =>
      if m then a :: boolean_index arr' mask' else boolean_index arr' mask'
  | _, _ => []
  end.

(** [np.any]. *)
Definition np_any (mask : list bool) : bool := existsb (fun b => b) mask.

(** The last element of a sequence, [s[-1]]. *)
Definition last_index {A : Type} (s : list A) : option A :=
  match rev s with
  | [] => None
  | a :: _ => Some a
  end.

(** [np.cumsum] and [np.sum] (accumulating from the left). *)
Fixpoint cumsum_from (acc : float) (l : list float) : list float :=
  match l with
  | [] => []
  | x :: l' => let acc' := (acc + x)%float in acc' :: cumsum_from acc' l'
  end.

Definition np_cumsum (l : list float) : list float :=
  match l with
  | [] => []
  | x :: l' => x :: cumsum_from x l'
  end.

Definition np_sum (l : list float) : float :=
  fold_left (fun acc x => (acc + x)%float) l 0%float.

(** Column [b] of a matrix given by rows, [m.T[b]]. *)
Definition column (b : nat) (m : list (list float)) : list float :=
  map (fun row => nth b row nan) m.

(** ** Boxes and intersection over union *)

(** A box in corner form, [x1, y1, x2, y2]. *)
Record Box : Type := mkBox { bx1 : float; by1 : float; bx2 : float; by2 : float }.

Definition intersection_of (box1 box2 : Box) : float :=
  let x1 := np_maximum (bx1 box1) (bx1 box2) in
  let y1 := np_maximum (by1 box1) (by1 box2) in
  let x2 := np_minimum (bx2 box1) (bx2 box2) in
  let y2 := np_minimum (by2 box1) (by2 box2) in
  (np_maximum 0 (x2 - x1) * np_maximum 0 (y2 - y1))%float.

Definition union_of (box1 box2 : Box) : float :=
  ((bx2 box1 - bx1 box1) * (by2 box1 - by1 box1)
   + (bx2 box2 - bx1 box2) * (by2 box2 - by1 box2)
   - intersection_of box1 box2)%float.

(** [__compute_iou]. *)
Definition compute_iou (box1 box2 : Box) : float :=
  let x1 := np_maximum (bx1 box1) (bx1 box2) in
  let y1 := np_maximum (by1 box1) (by1 box2) in
  let x2 := np_minimum (bx2 box1) (bx2 box2) in
  let y2 := np_minimum (by2 box1) (by2 box2) in
  let intersection_area := (np_maximum 0 (x2 - x1) * np_maximum 0 (y2 - y1))%float in
  let union_area :=
    ((bx2 box1 - bx1 box1) * (by2 box1 - by1 box1)
     + (bx2 box2 - bx1 box2) * (by2 box2 - by1 box2)
     - intersection_area)%float in
  (intersection_area / union_area)%float.

(** ** The model object *)

(** The fields of [DPPModel] that the post-processing reads. *)
Record DPPModel : Type := mkModel {
  grid_w : Z;
  grid_h : Z;
  NUM_BOXES : nat;
  ANCHORS : list (float * float);
  THRESH_SIG : float;
  THRESH_OVERLAP : float;
  THRESH_CORRECT : float;
  image_width : Z;
  image_height : Z;
  patch_width : Z;
  patch_height : Z
}.

(** One box of a grid cell, five values: [(tx, ty, tw, th, t_conf)] as
    the network produces it and [(x1, y1, x2, y2, conf)] once converted. *)
Record Pred : Type := mkPred { p0 : float; p1 : float; p2 : float; p3 : float; p4 : float }.

(** [row[0:4]] of a converted box. *)
Definition box_of (p : Pred) : Box := mkBox (p0 p) (p1 p) (p2 p) (p3 p).

(** A filtered prediction: the responsible box of a cell followed by the
    cell's class predictions. *)
Abbreviation Row := (Pred * list float)%type (only parsing).

(** A box in centre form, [x, y, w, h], as the labels store it. *)
Record XYWH : Type := mkXYWH { cx : float; cy : float; cw : float; ch : float }.

(** A ground-truth label, [objectness, class, x1, y1, x2, y2]. *)
Record Label : Type := mkLabel { l_obj : float; l_class : float; l_box : Box }.

Definition map2 {A B C : Type} (f : A -> B -> C) (a : list A) (b : list B) : list C :=
  map (fun ab => f (fst ab) (snd ab)) (combine a b).

(** [np.reshape(row[0:n*5], (n, 5))]: raises when the row is too short. *)
Fixpoint reshape5 (n : nat) (row : list float) : outcome (list Pred) :=
  match n with
  | O => Returned []
  | S n' =>
      match row with
      | a :: b :: c :: d :: e :: rest =>
          ps <- reshape5 n' rest ;; Returned (mkPred a b c d e :: ps)
      | _ => Raised
      end
  end.

(** ** [__yolo_coord_convert] *)

Section Numerics.

(** [scipy.special.expit] and [np.exp] on float64. *)
Variable expit : float -> float.
Variable np_exp : float -> float.

(** The helper [xywh_to_xyxy] on one-dimensional arrays indexed by grid
    cell.  Arrays of another length than the grid do not broadcast. *)
Definition xywh_to_xyxy (self : DPPModel) (x y w h : list float)
  : outcome (list float * list float * list float * list float) :=
  let cells := seq 0 (Z.to_nat (grid_w self * grid_h self)) in
  let x_centre := map (fun k => float_of_int (Z.of_nat k mod grid_w self)) cells in
  let y_centre := map (fun k => float_of_int (Z.of_nat k / grid_w self)) cells in
  scale_x <- py_truediv (image_width self) (grid_w self) ;;
  scale_y <- py_truediv (image_height self) (grid_h self) ;;
  if negb (length x =? length cells) || negb (length y =? length cells)
  then Raised
  else
    let x := map2 (fun a c => ((a + c) * scale_x)%float) x x_centre in
    let y := map2 (fun a c => ((a + c) * scale_y)%float) y y_centre in
    let w := map (fun a => (a * scale_x)%float) w in
    let h := map (fun a => (a * scale_y)%float) h in
    let x1 := map2 (fun a b => (a - b / 2)%float) x w in
    let x2 := map2 (fun a b => (a + b / 2)%float) x w in
    let y1 := map2 (fun a b => (a - b / 2)%float) y h in
    let y2 := map2 (fun a b => (a + b / 2)%float) y h in
    Returned (x1, y1, x2, y2).

(** The conversion of the labels: every row is the class columns followed
    by [x, y, w, h]. *)
Definition convert_labels (self : DPPModel) (labels : list (list float * XYWH))
  : outcome (list (list float * Box)) :=
  let lab := map snd labels in
  c <- xywh_to_xyxy self (map cx lab) (map cy lab) (map cw lab) (map ch lab) ;;
  let '(lab_x1, lab_y1, lab_x2, lab_y2) := c in
  Returned (map (fun j => (fst (nth j labels ([], mkXYWH nan nan nan nan)),
                           mkBox (nth j lab_x1 nan) (nth j lab_y1 nan)
                                 (nth j lab_x2 nan) (nth j lab_y2 nan)))
                (seq 0 (length labels))).

(** The conversion of the predictions.  [preds] has one flat row per grid
    cell: [NUM_BOXES] boxes of five values, then the class predictions.
    The anchors multiply along the box axis, so there must be one per
    box.  The transposes of the program hand the helper, for each box
    index, the column of that box over all cells; the final stack puts
    cell [j], box [b] back at [(j, b)]. *)
Definition convert_preds (self : DPPModel) (preds : list (list float))
  : outcome (list (list float)) :=
  let nb := NUM_BOXES self in
  let class_preds := map (skipn (nb * 5)) preds in
  preds <- mapM (reshape5 nb) preds ;;
  let anchors := ANCHORS self in
  if negb (length anchors =? nb) then Raised else
  let pred_x := map (map (fun p => expit (p0 p))) preds in
  let pred_y := map (map (fun p => expit (p1 p))) preds in
  let pred_w := map (fun cell => map2 (fun p a => (np_exp (p2 p) * fst a)%float) cell anchors) preds in
  let pred_h := map (fun cell => map2 (fun p a => (np_exp (p3 p) * snd a)%float) cell anchors) preds in
  let pred_conf := map (map (fun p => expit (p4 p))) preds in
  corners <- mapM (fun b => xywh_to_xyxy self (column b pred_x) (column b pred_y)
                                         (column b pred_w) (column b pred_h))
                  (seq 0 nb) ;;
  let stacked (j b : nat) : list float :=
    let '(pred_x1, pred_y1, pred_x2, pred_y2) := nth b corners ([], [], [], []) in
    [nth j pred_x1 nan; nth j pred_y1 nan; nth j pred_x2 nan; nth j pred_y2 nan;
     nth b (nth j pred_conf []) nan] in
  Returned (map (fun j => concat (map (stacked j) (seq 0 nb)) ++ nth j class_preds [])
                (seq 0 (length preds))).

Definition yolo_coord_convert (self : DPPModel)
  (labels : list (list float * XYWH)) (preds : list (list float))
  : outcome (list (list float * Box) * list (list float)) :=
  labels <- convert_labels self labels ;;
  preds <- convert_preds self preds ;;
  Returned (labels, preds).

End Numerics.

(** ** [__yolo_filter_predictions] *)

(** In each grid square, the highest confidence box is the one
    responsible for prediction. *)
Definition responsible_box (self : DPPModel) (row : list float) : outcome Row :=
  boxes <- reshape5 (NUM_BOXES self) row ;;
  max_conf_idx <- np_argmax (map p4 boxes) ;;
  box <- index boxes max_conf_idx ;;
  Returned (box, skipn (NUM_BOXES self * 5) row).

(** [np.stack] of no array raises. *)
Definition responsible_boxes (self : DPPModel) (preds : list (list float))
  : outcome (list Row) :=
  match preds with
  | [] => Raised
  | _ => mapM (responsible_box self) preds
  end.

(** [preds[:, 4] > self._THRESH_SIG]. *)
Definition sig_mask (self : DPPModel) (preds : list Row) : list bool :=
  map (fun r => (THRESH_SIG self <? p4 (fst r))%float) preds.

(** The matrix of the IoU of every pair of boxes. *)
Definition pairwise_iou (preds : list Row) : list (list float) :=
  map (fun ri => map (fun rj => compute_iou (box_of (fst ri)) (box_of (fst rj))) preds) preds.

(** [pair_iou[i, j]]. *)
Definition at2 (pair_iou : list (list float)) (i j : nat) : float :=
  nth j (nth i pair_iou []) nan.

(** The suppression loop.  One unit of fuel is one test of the [while]
    condition. *)
Fixpoint nms_while (fuel : nat) (thresh : float) (pair_iou : list (list float))
  (conf_order maximal_idx : list nat) : outcome (list nat) :=
  match fuel with
  | O => Unfinished
  | S fuel' =>
      match last_index conf_order with
      | None => Returned maximal_idx
      | Some cur_grid =>
          let maximal_idx := maximal_idx ++ [cur_grid] in
          let non_overlap :=
            map (fun j => (at2 pair_iou cur_grid j <? thresh)%float) conf_order in
          if np_any non_overlap
          then nms_while fuel' thresh pair_iou (boolean_index conf_order non_overlap) maximal_idx
          else Returned maximal_idx
      end
  end.

(** The second half of the function, from the significance mask on: the
    confidence threshold and the non-maximal suppression over the
    responsible boxes.  [None] is Python's [None]. *)
Definition detection_filter (self : DPPModel) (fuel : nat) (preds : list Row)
  : outcome (option (list Row)) :=
  let mask := sig_mask self preds in
  if negb (np_any mask) then Returned None else
  let preds := boolean_index preds mask in
  let conf_order := np_argsort (map (fun r => p4 (fst r)) preds) in
  let pair_iou := pairwise_iou preds in
  maximal_idx <- nms_while fuel (THRESH_OVERLAP self) pair_iou conf_order [] ;;
  preds <- mapM (index preds) maximal_idx ;;
  Returned (Some preds).

Definition yolo_filter_predictions (self : DPPModel) (fuel : nat) (preds : list (list float))
  : outcome (option (list Row)) :=
  preds <- responsible_boxes self preds ;;
  detection_filter self fuel preds.

(** A filtered array read again as the input of the filter: one box per
    row, then the class predictions. *)
Definition flat_row (r : Row) : list float :=
  [p0 (fst r); p1 (fst r); p2 (fst r); p3 (fst r); p4 (fst r)] ++ snd r.

(** ** [__yolo_map] *)

(** A detection record, [(confidence, 1)] for a true positive and
    [(confidence, 0)] for a false one. *)
Abbreviation Detection := (float * bool)%type (only parsing).

(** [a[j] = x] on a list. *)
Fixpoint assign {A : Type} (a : list A) (j : nat) (x : A) : list A :=
  match a, j with
  | [], _ => []
  | _ :: a', O => x :: a'
  | y :: a', S j' => y :: assign a' j' x
  end.

(** The loop over the predictions of one image.  [matched] is the seventh
    label column; [rows] pairs every prediction's confidence with its row
    of [pair_ious]. *)
Fixpoint match_predictions (thresh : float) (rows : list (float * list float))
  (matched : list bool) : outcome (list Detection) :=
  match rows with
  | [] => Returned []
  | (conf, ious) :: rows' =>
      j <- np_argmax ious ;;
      if (thresh <=? nth j ious nan)%float && negb (nth j matched false)
      then ds <- match_predictions thresh rows' (assign matched j true) ;;
           Returned ((conf, true) :: ds)
      else ds <- match_predictions thresh rows' matched ;;
           Returned ((conf, false) :: ds)
  end.

(** Row [i] of [pair_ious]: the IoU of prediction [i] with every label. *)
Definition iou_row (im_lab : list Label) (r : Row) : list float :=
  map (fun l => compute_iou (box_of (fst r)) (l_box l)) im_lab.

(** The detections one image contributes. *)
Definition image_detections (self : DPPModel)
  (im_lab : option (list Label)) (im_pred : option (list Row)) : outcome (list Detection) :=
  match im_pred with
  | None => Returned []
  | Some im_pred =>
      match im_lab with
      | None => Returned (map (fun r => (p4 (fst r), false)) im_pred)
      | Some im_lab =>
          let matched := map (fun _ => false) im_lab in
          let pair_ious := map (iou_row im_lab) im_pred in
          match_predictions (THRESH_CORRECT self)
                            (combine (map (fun r => p4 (fst r)) im_pred) pair_ious) matched
      end
  end.

Fixpoint all_detections (self : DPPModel)
  (images : list (option (list Label) * option (list Row))) : outcome (list Detection) :=
  match images with
  | [] => Returned []
  | (im_lab, im_pred) :: images' =>
      ds <- image_detections self im_lab im_pred ;;
      ds' <- all_detections self images' ;;
      Returned (ds ++ ds')
  end.

(** [sorted(detections, key=lambda d: d[0], reverse=True)]: a stable sort,
    equal confidences keep their order. *)
Fixpoint insert_desc (d : Detection) (sorted : list Detection) : list Detection :=
  match sorted with
  | [] => [d]
  | e :: rest =>
      if (fst e <? fst d)%float then d :: sorted else e :: insert_desc d rest
  end.

Definition py_sorted_desc (detections : list Detection) : list Detection :=
  fold_left (fun sorted d => insert_desc d sorted) detections [].

(** The backward loop that makes every precision the maximum of the
    precisions at further recalls. *)
Fixpoint precision_envelope (precision : list float) : list float :=
  match precision with
  | [] => []
  | p :: rest =>
      match precision_envelope rest with
      | [] => [p]
      | q :: rest' => np_maximum q p :: q :: rest'
      end
  end.

Definition yolo_map (self : DPPModel)
  (labels : list (option (list Label))) (preds : list (option (list Row))) : outcome float :=
  detections <- all_detections self (combine labels preds) ;;
  match detections with
  | [] => Returned 0%float
  | _ =>
      let detections := py_sorted_desc detections in
      let n_truths :=
        fold_left (fun acc x => match x with
                                | Some x => (acc + Z.of_nat (length x))%Z
                                | None => acc
                                end) labels 0%Z in
      let n_positives := length detections in
      let true_positives :=
        np_cumsum (map (fun d : Detection => if snd d then 1%float else 0%float) detections) in
      let precision :=
        map2 (fun tp k => (tp / float_of_int (Z.of_nat k))%float)
             true_positives (seq 1 n_positives) in
      let recall := map (fun tp => (tp / float_of_int n_truths)%float) true_positives in
      let precision := precision_envelope precision in
      let ap :=
        np_sum (map2 (fun p r => (p * r)%float) (tl precision)
                     (map2 (fun r1 r0 => (r1 - r0)%float) (tl recall) (removelast recall))) in
      Returned ap
  end.

(** ** [forward_pass_with_interpreted_outputs], object detection with patching *)

(** A row appended to [total_pred_boxes]: integer corners and the
    confidence of the responsible box. *)
Record PredBox : Type :=
  mkPredBox { pb_x1 : Z; pb_y1 : Z; pb_x2 : Z; pb_y2 : Z; pb_conf : float }.

(** [np.array] turns such a row into five floats. *)
Definition as_floats (b : PredBox) : Pred :=
  mkPred (float_of_int (pb_x1 b)) (float_of_int (pb_y1 b))
         (float_of_int (pb_x2 b)) (float_of_int (pb_y2 b)) (pb_conf b).

(** The suppression loop of the forward pass: the last index goes to the
    output and leaves the list together with every index whose box
    overlaps its box by more than 0.3.  The list shrinks at every turn, so
    its length is fuel enough. *)
Fixpoint suppress_loop (fuel : nat) (all_boxes : list Pred)
  (idxs final_boxes_idxs : list nat) : list nat :=
  match fuel with
  | O => final_boxes_idxs
  | S fuel' =>
      match last_index idxs with
      | None => final_boxes_idxs
      | Some i =>
          let box := fun k => box_of (nth k all_boxes (mkPred nan nan nan nan nan)) in
          let kept :=
            filter (fun j => negb (0.3 <? compute_iou (box i) (box j))%float)
                   (removelast idxs) in
          suppress_loop fuel' all_boxes kept (final_boxes_idxs ++ [i])
      end
  end.

Definition non_maximal_suppression (all_boxes : list Pred) : outcome (list Pred) :=
  match all_boxes with
  | [] => Raised
  | _ =>
      let idxs := np_argsort (map p4 all_boxes) in
      let final_boxes_idxs := suppress_loop (length idxs) all_boxes idxs [] in
      mapM (index all_boxes) final_boxes_idxs
  end.

Section Interpreted.

Variable expit : float -> float.
Variable np_exp : float -> float.

(** The centre of a responsible box in the coordinates of its patch. *)
Definition patch_local (offset : float) (c : Z) (patch_size grid : Z) : outcome float :=
  scale <- py_truediv patch_size grid ;;
  Returned ((expit offset + float_of_int c) * scale)%float.

(** Cell [j] of patch [i]: the boxes it appends to [total_pred_boxes]. *)
Definition patch_cell (self : DPPModel) (num_patches_horiz : Z)
  (img_data : list (list float)) (i j : nat) : outcome (list PredBox) :=
  patch <- index img_data i ;;
  c1 <- index patch (j * 26 + 4) ;;
  c2 <- index patch (j * 26 + 9) ;;
  c3 <- index patch (j * 26 + 14) ;;
  c4 <- index patch (j * 26 + 19) ;;
  c5 <- index patch (j * 26 + 24) ;;
  let box_confs := [expit c1; expit c2; expit c3; expit c4; expit c5] in
  max_conf_idx <- np_argmax box_confs ;;
  conf <- index box_confs max_conf_idx ;;
  if (0.6 <? conf)%float then
    let pred_box := firstn 4 (skipn (j * 26 + 5 * max_conf_idx) patch) in
    let c_x := (Z.of_nat j mod grid_w self)%Z in
    let c_y := (Z.of_nat j / grid_w self)%Z in
    tx <- index pred_box 0 ;;
    local_x <- patch_local tx c_x (patch_width self) (grid_w self) ;;
    let x := (local_x
              + float_of_int ((Z.of_nat i mod num_patches_horiz) * patch_width self))%float in
    ty <- index pred_box 1 ;;
    local_y <- patch_local ty c_y (patch_height self) (grid_h self) ;;
    let y := (local_y
              + float_of_int ((Z.of_nat i / num_patches_horiz) * patch_height self))%float in
    prior <- index (ANCHORS self) max_conf_idx ;;
    let prior_w := fst prior in
    let prior_h := snd prior in
    tw <- index pred_box 2 ;;
    scale_w <- py_truediv (image_width self) (grid_w self) ;;
    let w := (np_exp tw * prior_w * scale_w)%float in
    th <- index pred_box 3 ;;
    scale_h <- py_truediv (image_height self) (grid_h self) ;;
    let h := (np_exp th * prior_h * scale_h)%float in
    x1 <- py_int (x - w / 2)%float ;;
    y1 <- py_int (y - h / 2)%float ;;
    x2 <- py_int (x + w / 2)%float ;;
    y2 <- py_int (y + h / 2)%float ;;
    Returned [mkPredBox x1 y1 x2 y2 conf]
  else Returned [].

(** All the patches of one image, patch by patch and cell by cell. *)
Definition image_boxes (self : DPPModel) (num_patches_horiz num_patches_vert : Z)
  (img_data : list (list float)) : outcome (list PredBox) :=
  let num_patches := Z.to_nat (num_patches_vert * num_patches_horiz) in
  let cells := Z.to_nat (grid_w self * grid_h self) in
  boxes <- mapM (fun ij => patch_cell self num_patches_horiz img_data (fst ij) (snd ij))
                (list_prod (seq 0 num_patches) (seq 0 cells)) ;;
  Returned (concat boxes).

(** The loop over the images.  [total_pred_boxes] is created once, before
    the loop; [interpreted] is what the last suppression left. *)
Fixpoint interpret_images (self : DPPModel) (num_patches_horiz num_patches_vert : Z)
  (total_outputs : list (list (list float))) (total_pred_boxes : list PredBox)
  (interpreted : outcome (list Pred)) : outcome (list Pred) :=
  match total_outputs with
  | [] => interpreted
  | img_data :: rest =>
      boxes <- image_boxes self num_patches_horiz num_patches_vert img_data ;;
      let total_pred_boxes := total_pred_boxes ++ boxes in
      kept <- non_maximal_suppression (map as_floats total_pred_boxes) ;;
      interpret_images self num_patches_horiz num_patches_vert rest total_pred_boxes
                       (Returned kept)
  end.

Definition interpreted_outputs_with_patching (self : DPPModel)
  (total_outputs : list (list (list float))) : outcome (list Pred) :=
  if (patch_height self =? 0)%Z || (patch_width self =? 0)%Z then Raised else
  let num_patches_vert := (image_height self / patch_height self)%Z in
  let num_patches_horiz := (image_width self / patch_width self)%Z in
  interpret_images self num_patches_horiz num_patches_vert total_outputs [] Raised.

End Interpreted.

(** ** [forward_pass_with_interpreted_outputs], object detection without patching *)

Section Unpatched.

Variable expit : float -> float.
Variable np_exp : float -> float.

(** Cell [i] of an image: the boxes it appends to [total_pred_boxes]. *)
Definition grid_cell (self : DPPModel) (img_data : list float) (i : nat)
  : outcome (list PredBox) :=
  c1 <- index img_data (i * 26 + 4) ;;
  c2 <- index img_data (i * 26 + 9) ;;
  c3 <- index img_data (i * 26 + 14) ;;
  c4 <- index img_data (i * 26 + 19) ;;
  c5 <- index img_data (i * 26 + 24) ;;
  let box_confs := [expit c1; expit c2; expit c3; expit c4; expit c5] in
  max_conf_idx <- np_argmax box_confs ;;
  conf <- index box_confs max_conf_idx ;;
  if (0.6 <? conf)%float then
    let pred_box := firstn 4 (skipn (i * 26 + 5 * max_conf_idx) img_data) in
    let c_x := (Z.of_nat i mod grid_w self)%Z in
    let c_y := (Z.of_nat i / grid_w self)%Z in
    tx <- index pred_box 0 ;;
    x <- patch_local expit tx c_x (image_width self) (grid_w self) ;;
    ty <- index pred_box 1 ;;
    y <- patch_local expit ty c_y (image_height self) (grid_h self) ;;
    prior <- index (ANCHORS self) max_conf_idx ;;
    let prior_w := fst prior in
    let prior_h := snd prior in
    tw <- index pred_box 2 ;;
    scale_w <- py_truediv (image_width self) (grid_w self) ;;
    let w := (np_exp tw * prior_w * scale_w)%float in
    th <- index pred_box 3 ;;
    scale_h <- py_truediv (image_height self) (grid_h self) ;;
    let h := (np_exp th * prior_h * scale_h)%float in
    x1 <- py_int (x - w / 2)%float ;;
    y1 <- py_int (y - h / 2)%float ;;
    x2 <- py_int (x + w / 2)%float ;;
    y2 <- py_int (y + h / 2)%float ;;
    Returned [mkPredBox x1 y1 x2 y2 conf]
  else Returned [].

(** All the cells of one image. *)
Definition grid_boxes (self : DPPModel) (img_data : list float) : outcome (list PredBox) :=
  let cells := Z.to_nat (grid_w self * grid_h self) in
  boxes <- mapM (grid_cell self img_data) (seq 0 cells) ;;
  Returned (concat boxes).

(** The loop over the images, with the list of boxes that is created
    once, before the loop. *)
Fixpoint interpret_grids (self : DPPModel) (total_outputs : list (list float))
  (total_pred_boxes : list PredBox) (interpreted : outcome (list Pred))
  : outcome (list Pred) :=
  match total_outputs with
  | [] => interpreted
  | img_data :: rest =>
      boxes <- grid_boxes self img_data ;;
      let total_pred_boxes := total_pred_boxes ++ boxes in
      kept <- non_maximal_suppression (map as_floats total_pred_boxes) ;;
      interpret_grids self rest total_pred_boxes (Returned kept)
  end.

Definition interpreted_outputs_without_patching (self : DPPModel)
  (total_outputs : list (list float)) : outcome (list Pred) :=
  interpret_grids self total_outputs [] Raised.

End Unpatched.

(** ** [forward_pass_with_interpreted_outputs], the batches and the crop *)

(** [a // b] and [a % b] on Python integers. *)
Definition py_floordiv (a b : Z) : outcome Z :=
  if (b =? 0)%Z then Raised else Returned (a / b)%Z.

Definition py_mod (a b : Z) : outcome Z :=
  if (b =? 0)%Z then Raised else Returned (a mod b)%Z.

(** The crop that the patches tile: the largest multiples of the patch
    size inside the image, centred. *)
Record PatchCrop : Type := mkPatchCrop {
  final_height : Z;
  final_width : Z;
  num_patches_vert : Z;
  num_patches_horiz : Z;
  offset_height : Z;
  offset_width : Z
}.

Definition patch_crop (self : DPPModel) : outcome PatchCrop :=
  let patch_height := patch_height self in
  let patch_width := patch_width self in
  rows <- py_floordiv (image_height self) patch_height ;;
  let final_height := (rows * patch_height)%Z in
  cols <- py_floordiv (image_width self) patch_width ;;
  let final_width := (cols * patch_width)%Z in
  num_patches_vert <- py_floordiv (image_height self) patch_height ;;
  num_patches_horiz <- py_floordiv (image_width self) patch_width ;;
  offset_height <- py_floordiv (image_height self - final_height) 2 ;;
  offset_width <- py_floordiv (image_width self - final_width) 2 ;;
  Returned (mkPatchCrop final_height final_width num_patches_vert num_patches_horiz
                        offset_height offset_width).

(** The number of runs of the network and the number of rows the last
    run has too many, for [len_x] images in batches of [batch_size]. *)
Definition batch_plan (len_x batch_size : Z) : outcome (Z * Z) :=
  num_batches <- py_floordiv len_x batch_size ;;
  remainder <- py_mod len_x batch_size ;;
  if negb (remainder =? 0)%Z
  then Returned ((num_batches + 1)%Z, (batch_size - remainder)%Z)
  else Returned (num_batches, remainder).

(** [np.delete(a, -1, 0)], [n] times; an empty array has no last row. *)
Fixpoint delete_last {A : Type} (n : nat) (a : list A) : outcome (list A) :=
  match n with
  | O => Returned a
  | S n' =>
      match a with
      | [] => Raised
      | _ => delete_last n' (removelast a)
      end
  end.

(** The rows collected from the runs: [first_row] is the row that
    [np.empty] allocated, [runs] the output of every run, one row per
    image of the batch. *)
Definition collect_outputs {A : Type} (first_row : A) (runs : list (list A)) (remainder : Z)
  : outcome (list A) :=
  let total_outputs := fold_left (fun total xx => fold_left (fun t img => t ++ [img]) xx total)
                                 runs [first_row] in
  let total_outputs := tl total_outputs in
  if negb (remainder =? 0)%Z then delete_last (Z.to_nat remainder) total_outputs
  else Returned total_outputs.

(** ** The setters of the object detection model *)

(** [set_patch_size]: both sizes must be positive. *)
Definition set_patch_size (self : DPPModel) (height width : Z) : outcome DPPModel :=
  if (height <=? 0)%Z then Raised else
  if (width <=? 0)%Z then Raised else
  Returned (mkModel (grid_w self) (grid_h self) (NUM_BOXES self) (ANCHORS self)
                    (THRESH_SIG self) (THRESH_OVERLAP self) (THRESH_CORRECT self)
                    (image_width self) (image_height self) width height).

(** [set_yolo_thresholds]: the three values are stored as they come. *)
Definition set_yolo_thresholds (self : DPPModel) (thresh_sig thresh_overlap thresh_correct : float)
  : DPPModel :=
  mkModel (grid_w self) (grid_h self) (NUM_BOXES self) (ANCHORS self)
          thresh_sig thresh_overlap thresh_correct
          (image_width self) (image_height self) (patch_width self) (patch_height self).

(** The default of [_RAW_ANCHORS]. *)
Definition default_anchors : list (list Z) :=
  [[159; 157]; [103; 133]; [91; 89]; [64; 65]; [142; 101]]%Z.

(** [set_yolo_parameters], for a grid size given as a list of integers
    and anchors given as a list of lists of integers; [None] and the empty
    list select the defaults.  The class labels only set [_LABELS] and
    [_NUM_CLASSES]. *)
Definition set_yolo_parameters (self : DPPModel) (grid_size : option (list Z))
  (anchors : option (list (list Z))) : outcome DPPModel :=
  if (image_width self =? 0)%Z || (image_height self =? 0)%Z then Raised else
  grid <- match grid_size with
          | None | Some [] => Returned (7, 7)%Z
          | Some [w; h] => Returned (w, h)
          | Some _ => Raised
          end ;;
  raw_anchors <- match anchors with
                 | None | Some [] => Returned default_anchors
                 | Some a =>
                     if forallb (fun x => length x =? 2) a then Returned a else Raised
                 end ;;
  let num_boxes := length raw_anchors in
  scale_w <- py_truediv (fst grid) (image_width self) ;;
  scale_h <- py_truediv (snd grid) (image_height self) ;;
  scaled <- mapM (fun anchor =>
                    a0 <- index anchor 0 ;;
                    a1 <- index anchor 1 ;;
                    Returned ((float_of_int a0 * scale_w)%float,
                              (float_of_int a1 * scale_h)%float))
                 raw_anchors ;;
  Returned (mkModel (fst grid) (snd grid) num_boxes scaled
                    (THRESH_SIG self) (THRESH_OVERLAP self) (THRESH_CORRECT self)
                    (image_width self) (image_height self)
                    (patch_width self) (patch_height self)).

(** ** [compute_full_test_accuracy], object detection *)

Section Accuracy.

Variable expit : float -> float.
Variable np_exp : float -> float.

(** A row of [all_y] for one grid cell: [objectness, class, x, y, w, h]. *)
Definition label_columns (l : float * float * XYWH) : list float * XYWH :=
  ([fst (fst l); snd (fst l)], snd l).

(** A converted label row read as [__yolo_map] reads it. *)
Definition label_of_row (r : list float * Box) : Label :=
  mkLabel (nth 0 (fst r) nan) (nth 1 (fst r) nan) (snd r).

(** One turn of the loop over the images: the converted labels with
    objectness 1, or [None] when there is none, and the filtered
    predictions. *)
Definition convert_and_filter (self : DPPModel) (fuel : nat)
  (test_label : list (float * float * XYWH)) (test_pred : list (list float))
  : outcome (option (list Label) * option (list Row)) :=
  c <- yolo_coord_convert expit np_exp self (map label_columns test_label) test_pred ;;
  let conv_label := map label_of_row (fst c) in
  let conv_pred := snd c in
  let truth_mask := map (fun l => (l_obj l =? 1)%float) conv_label in
  let conv_label :=
    if negb (np_any truth_mask) then None else Some (boolean_index conv_label truth_mask) in
  conv_pred <- yolo_filter_predictions self fuel conv_pred ;;
  Returned (conv_label, conv_pred).

(** The object detection branch: the mAP that is logged. *)
Definition compute_full_test_accuracy (self : DPPModel) (fuel : nat)
  (all_y : list (list (float * float * XYWH))) (all_predictions : list (list (list float)))
  : outcome float :=
  let test_labels := all_y in
  let test_preds := all_predictions in
  let n_images := length test_labels in
  images <- mapM (fun i =>
                    test_label <- index test_labels i ;;
                    test_pred <- index test_preds i ;;
                    convert_and_filter self fuel test_label test_pred)
                 (seq 0 n_images) ;;
  yolo_map self (map fst images) (map snd images).

End Accuracy.

(** ** Vocabulary of the statements *)

Definition count_true (l : list bool) : nat := length (filter (fun b => b) l).

(** What the detections [ds] of one image with labels say about the
    matching: one record per prediction, in order; prediction [i] is a
    true positive exactly when the label [j] of its largest IoU reaches
    the correctness threshold and no earlier prediction was recorded as a
    true positive for the same [j]; and there are at most as many true
    positives as labels. *)
Definition matched_once (self : DPPModel) (im_lab : list Label) (im_pred : list Row)
  (ds : list Detection) : Prop :=
  length ds = length im_pred /\
  (forall i r, nth_error im_pred i = Some r ->
     exists j tp,
       np_argmax (iou_row im_lab r) = Returned j /\
       j < length im_lab /\
       nth_error ds i = Some (p4 (fst r), tp) /\
       (tp = true <->
        (THRESH_CORRECT self <=? nth j (iou_row im_lab r) nan)%float = true /\
        forall i' r', i' < i ->
          nth_error im_pred i' = Some r' ->
          nth_error ds i' = Some (p4 (fst r'), true) ->
          np_argmax (iou_row im_lab r') <> Returned j)) /\
  length (filter snd ds) <= length im_lab.

(** The detections of a data set are those of its images, one image
    after the other, each matched against its own labels only. *)
Definition matched_per_image (self : DPPModel)
  (images : list (option (list Label) * option (list Row))) (ds : list Detection) : Prop :=
  exists dss,
    ds = concat dss /\
    Forall2 (fun im d =>
               image_detections self (fst im) (snd im) = Returned d /\
               match im with
               | (Some im_lab, Some im_pred) => matched_once self im_lab im_pred d
               | (None, Some im_pred) => d = map (fun r => (p4 (fst r), false)) im_pred
               | (_, None) => d = []
               end) images dss.

(** [k] is the lowest index of the maximum of [confs], and [conf] the
    value there.  Among numbers the maximum is the largest; NumPy takes a
    NaN for the maximum, and then nothing is said. *)
Definition lowest_argmax (confs : list float) (k : nat) (conf : float) : Prop :=
  nth_error confs k = Some conf /\
  (is_nan conf = false ->
   forall i c, nth_error confs i = Some c ->
     (c <=? conf)%float = true /\ (i < k -> (c <? conf)%float = true)).



(** Patch stitching as the specification words it: the image coordinate
    of a point of patch [patch_index] is its patch-local coordinate plus
    the patch's column times the patch width, and plus the patch's row
    times the patch height. *)
Definition stitch (num_patches_horiz patch_w patch_h : Z) (patch_index : nat)
  (patch_local_x patch_local_y : float) : float * float :=
  ((patch_local_x + float_of_int ((Z.of_nat patch_index mod num_patches_horiz) * patch_w))%float,
   (patch_local_y + float_of_int ((Z.of_nat patch_index / num_patches_horiz) * patch_h))%float).

(** What cell [j] of patch [i] appends: nothing when the largest of its
    five sigmoid confidences, taken at the lowest index, is not above 0.6;
    otherwise one box, whose centre is the patch-local centre (which does
    not depend on [i]) stitched into the image, and whose two corners are
    that one centre minus and plus half the size, truncated. *)
Definition stitched_cell (expit np_exp : float -> float) (self : DPPModel)
  (num_patches_horiz : Z) (img_data : list (list float)) (i j : nat)
  (bs : list PredBox) : Prop :=
  exists patch k conf,
    nth_error img_data i = Some patch /\
    lowest_argmax (map (fun b => expit (nth (j * 26 + 5 * b + 4) patch nan)) [0; 1; 2; 3; 4])
                  k conf /\
    ((0.6 <? conf)%float = false -> bs = []) /\
    ((0.6 <? conf)%float = true ->
     exists local_x local_y prior x1 y1 x2 y2,
       patch_local expit (nth (j * 26 + 5 * k) patch nan)
                   (Z.of_nat j mod grid_w self) (patch_width self) (grid_w self)
         = Returned local_x /\
       patch_local expit (nth (j * 26 + 5 * k + 1) patch nan)
                   (Z.of_nat j / grid_w self) (patch_height self) (grid_h self)
         = Returned local_y /\
       nth_error (ANCHORS self) k = Some prior /\
       let image_xy := stitch num_patches_horiz (patch_width self) (patch_height self)
                              i local_x local_y in
       let w := (np_exp (nth (j * 26 + 5 * k + 2) patch nan) * fst prior
                 * (float_of_int (image_width self) / float_of_int (grid_w self)))%float in
       let h := (np_exp (nth (j * 26 + 5 * k + 3) patch nan) * snd prior
                 * (float_of_int (image_height self) / float_of_int (grid_h self)))%float in
       py_int (fst image_xy - w / 2)%float = Returned x1 /\
       py_int (snd image_xy - h / 2)%float = Returned y1 /\
       py_int (fst image_xy + w / 2)%float = Returned x2 /\
       py_int (snd image_xy + h / 2)%float = Returned y2 /\
       bs = [mkPredBox x1 y1 x2 y2 conf]).


(** The test of the suppression loop: index [j] stays in [conf_order]
    when its IoU with the selected box [cur] is below the threshold. *)
Definition kept_by (thresh : float) (pair_iou : list (list float)) (cur j : nat) : bool :=
  (at2 pair_iou cur j <? thresh)%float.


(** The box of index [k] of the array that the forward pass suppresses,
    and the test of its loop: index [j] stays in [idxs] when its IoU with
    the selected box [i] is not above 0.3. *)
Definition box_at (all_boxes : list Pred) (k : nat) : Box :=
  box_of (nth k all_boxes (mkPred nan nan nan nan nan)).

Definition survives (all_boxes : list Pred) (i j : nat) : bool :=
  negb (0.3 <? compute_iou (box_at all_boxes i) (box_at all_boxes j))%float.

(** * Properties *)

(** ** The order of binary64 floats *)

Ltac sf_signs :=
  repeat match goal with
  | s : bool |- _ => destruct s
  end; simpl in *; try discriminate; try congruence.

Ltac cmp_cases :=
  repeat match goal with
  | H : context[(?a ?= ?b)%Z] |- _ => destruct (Z.compare_spec a b); try discriminate
  | |- context[(?a ?= ?b)%Z] => destruct (Z.compare_spec a b)
  | H : context[(?a ?= ?b)%positive] |- _ =>
      destruct (Pos.compare_spec a b); simpl in H; try discriminate
  | |- context[(?a ?= ?b)%positive] => destruct (Pos.compare_spec a b); simpl
  end.

Lemma SFcompare_lt_trans x y z c :
  SFcompare x y = Some Lt -> SFcompare y z = Some c -> c <> Gt ->
  SFcompare x z = Some Lt.
Proof.
  destruct x as [sx|sx| |sx mx ex], y as [sy|sy| |sy my ey], z as [sz|sz| |sz mz ez];
    simpl; intros Hxy Hyz Hc; try discriminate; sf_signs;
    try (exfalso; apply Hc; congruence);
    change (PosDef.Pos.compare_cont Eq) with Pos.compare in *;
    injection Hxy as Hxy; injection Hyz as Hyz; f_equal;
    cmp_cases; subst; try lia; try reflexivity; try congruence.
Qed.

Lemma SFcompare_eq_lt_trans x y z :
  SFcompare x y = Some Eq -> SFcompare y z = Some Lt -> SFcompare x z = Some Lt.
Proof.
  destruct x as [sx|sx| |sx mx ex], y as [sy|sy| |sy my ey], z as [sz|sz| |sz mz ez];
    simpl; intros Hxy Hyz; try discriminate; sf_signs;
    change (PosDef.Pos.compare_cont Eq) with Pos.compare in *;
    injection Hxy as Hxy; injection Hyz as Hyz; f_equal;
    cmp_cases; subst; try lia; try reflexivity; try congruence.
Qed.

Lemma SFcompare_eq_trans x y z :
  SFcompare x y = Some Eq -> SFcompare y z = Some Eq -> SFcompare x z = Some Eq.
Proof.
  destruct x as [sx|sx| |sx mx ex], y as [sy|sy| |sy my ey], z as [sz|sz| |sz mz ez];
    simpl; intros Hxy Hyz; try discriminate; sf_signs;
    change (PosDef.Pos.compare_cont Eq) with Pos.compare in *;
    injection Hxy as Hxy; injection Hyz as Hyz; f_equal;
    cmp_cases; subst; try lia; try reflexivity; try congruence.
Qed.

Lemma SFcompare_swap x y :
  SFcompare y x = option_map CompOpp (SFcompare x y).
Proof.
  destruct x as [sx|sx| |sx mx ex], y as [sy|sy| |sy my ey];
    simpl; try reflexivity; sf_signs;
    change (PosDef.Pos.compare_cont Eq) with Pos.compare in *;
    f_equal; rewrite (Z.compare_antisym ey ex), (Pos.compare_antisym my mx);
    destruct (ey ?= ex)%Z; simpl; try reflexivity;
    destruct (my ?= mx)%positive; reflexivity.
Qed.

Lemma SFcompare_refl x : x <> S754_nan -> SFcompare x x = Some Eq.
Proof.
  destruct x as [s|s| |s m e]; simpl; intros H; try congruence; sf_signs;
    change (PosDef.Pos.compare_cont Eq) with Pos.compare;
    rewrite Z.compare_refl, Pos.compare_refl; reflexivity.
Qed.

Lemma SFcompare_none x y :
  SFcompare x y = None <-> x = S754_nan \/ y = S754_nan.
Proof.
  destruct x as [sx|sx| |sx mx ex], y as [sy|sy| |sy my ey]; simpl;
    split; intros H; try discriminate; auto;
    destruct H as [H|H]; discriminate.
Qed.

Lemma is_nan_Prim2SF (x : float) : is_nan x = true <-> Prim2SF x = S754_nan.
Proof.
  unfold is_nan. rewrite eqb_spec. unfold SFeqb.
  destruct (Prim2SF x) eqn:E.
  - simpl. split; discriminate.
  - rewrite SFcompare_refl by discriminate. simpl. split; discriminate.
  - simpl. split; reflexivity.
  - rewrite SFcompare_refl by discriminate. simpl. split; discriminate.
Qed.

Lemma is_nan_false_Prim2SF (x : float) : is_nan x = false <-> Prim2SF x <> S754_nan.
Proof.
  rewrite <- is_nan_Prim2SF. destruct (is_nan x); split; congruence.
Qed.

(** A comparison that holds has two numbers on its sides. *)
Lemma ltb_not_nan (x y : float) :
  (x <? y)%float = true -> is_nan x = false /\ is_nan y = false.
Proof.
  rewrite ltb_spec. unfold SFltb. rewrite !is_nan_false_Prim2SF.
  destruct (SFcompare (Prim2SF x) (Prim2SF y)) eqn:E; try discriminate.
  intros _. split; intros H; rewrite H in E;
    [| destruct (Prim2SF x)]; discriminate.
Qed.

Lemma leb_not_nan (x y : float) :
  (x <=? y)%float = true -> is_nan x = false /\ is_nan y = false.
Proof.
  rewrite leb_spec. unfold SFleb. rewrite !is_nan_false_Prim2SF.
  destruct (SFcompare (Prim2SF x) (Prim2SF y)) eqn:E; try discriminate.
  intros _. split; intros H; rewrite H in E;
    [| destruct (Prim2SF x)]; discriminate.
Qed.

Lemma ltb_leb (x y : float) : (x <? y)%float = true -> (x <=? y)%float = true.
Proof.
  rewrite ltb_spec, leb_spec. unfold SFltb, SFleb.
  destruct (SFcompare (Prim2SF x) (Prim2SF y)) as [[]|]; congruence.
Qed.


Lemma leb_ltb_trans (x y z : float) :
  (x <=? y)%float = true -> (y <? z)%float = true -> (x <? z)%float = true.
Proof.
  rewrite !ltb_spec, leb_spec. unfold SFltb, SFleb.
  destruct (SFcompare (Prim2SF x) (Prim2SF y)) as [[]|] eqn:Exy; try discriminate;
    destruct (SFcompare (Prim2SF y) (Prim2SF z)) as [[]|] eqn:Eyz; try discriminate;
    intros _ _.
  - rewrite (SFcompare_eq_lt_trans _ _ _ Exy Eyz). reflexivity.
  - rewrite (SFcompare_lt_trans _ _ _ Lt Exy Eyz); [reflexivity|discriminate].
Qed.

Lemma leb_trans (x y z : float) :
  (x <=? y)%float = true -> (y <=? z)%float = true -> (x <=? z)%float = true.
Proof.
  rewrite !leb_spec. unfold SFleb.
  destruct (SFcompare (Prim2SF x) (Prim2SF y)) as [[]|] eqn:Exy; try discriminate;
    destruct (SFcompare (Prim2SF y) (Prim2SF z)) as [[]|] eqn:Eyz; try discriminate;
    intros _ _.
  - rewrite (SFcompare_eq_trans _ _ _ Exy Eyz). reflexivity.
  - rewrite (SFcompare_eq_lt_trans _ _ _ Exy Eyz). reflexivity.
  - rewrite (SFcompare_lt_trans _ _ _ Eq Exy Eyz); [reflexivity|discriminate].
  - rewrite (SFcompare_lt_trans _ _ _ Lt Exy Eyz); [reflexivity|discriminate].
Qed.

Lemma leb_refl (x : float) : is_nan x = false -> (x <=? x)%float = true.
Proof.
  rewrite is_nan_false_Prim2SF, leb_spec. unfold SFleb. intros H.
  rewrite SFcompare_refl by assumption. reflexivity.
Qed.

(** Two numbers are always comparable. *)
Lemma leb_total (x y : float) :
  is_nan x = false -> is_nan y = false ->
  (x <=? y)%float = false -> (y <? x)%float = true.
Proof.
  rewrite !is_nan_false_Prim2SF, leb_spec, ltb_spec. unfold SFleb, SFltb.
  intros Hx Hy. rewrite (SFcompare_swap (Prim2SF x) (Prim2SF y)).
  destruct (SFcompare (Prim2SF x) (Prim2SF y)) as [[]|] eqn:E; simpl; try congruence.
  apply SFcompare_none in E. tauto.
Qed.

Lemma ltb_total (x y : float) :
  is_nan x = false -> is_nan y = false ->
  (x <? y)%float = false -> (y <=? x)%float = true.
Proof.
  rewrite !is_nan_false_Prim2SF, leb_spec, ltb_spec. unfold SFleb, SFltb.
  intros Hx Hy. rewrite (SFcompare_swap (Prim2SF x) (Prim2SF y)).
  destruct (SFcompare (Prim2SF x) (Prim2SF y)) as [[]|] eqn:E; simpl; try congruence.
  apply SFcompare_none in E. tauto.
Qed.


Lemma ltb_leb_false (x y : float) :
  (x <? y)%float = true -> (y <=? x)%float = false.
Proof.
  rewrite leb_spec, ltb_spec. unfold SFleb, SFltb.
  rewrite (SFcompare_swap (Prim2SF x) (Prim2SF y)).
  destruct (SFcompare (Prim2SF x) (Prim2SF y)) as [[]|]; simpl; congruence.
Qed.


(** On numbers, NumPy's sorting order is [<]. *)
Lemma np_lt_ltb (x y : float) : is_nan y = false -> np_lt x y = (x <? y)%float.
Proof. unfold np_lt. intros ->. simpl. apply orb_false_r. Qed.

(** ** Division by a zero *)

Lemma is_zero_Prim2SF (x : float) :
  is_zero x = true -> exists s, Prim2SF x = S754_zero s.
Proof.
  unfold is_zero. rewrite eqb_spec.
  change (Prim2SF zero) with (S754_zero false). unfold SFeqb.
  destruct (Prim2SF x) as [s|s| |s m e]; simpl; try discriminate.
  - intros _. now exists s.
  - destruct s; discriminate.
  - destruct s; discriminate.
Qed.

Lemma div_zero_cases (x y : float) :
  is_zero y = true ->
  Prim2SF (x / y)%float = S754_nan \/ exists s, Prim2SF (x / y)%float = S754_infinity s.
Proof.
  intros Hy. apply is_zero_Prim2SF in Hy. destruct Hy as [sy Hy].
  rewrite div_spec, Hy. unfold SF64div, SFdiv.
  destruct (Prim2SF x) as [s|s| |s m e]; eauto.
Qed.

Lemma zero_div_zero (x y : float) :
  is_zero x = true -> is_zero y = true -> is_nan (x / y)%float = true.
Proof.
  intros Hx Hy. apply is_zero_Prim2SF in Hx, Hy.
  destruct Hx as [sx Hx], Hy as [sy Hy].
  apply is_nan_Prim2SF. rewrite div_spec, Hx, Hy. reflexivity.
Qed.

Lemma not_finite_not_zero (x : float) :
  Prim2SF x = S754_nan \/ (exists s, Prim2SF x = S754_infinity s) ->
  is_zero x = false /\ is_finite x = false.
Proof.
  intros H. unfold is_finite, is_zero, is_infinity, is_nan.
  rewrite !eqb_spec, abs_spec.
  change (Prim2SF zero) with (S754_zero false).
  change (Prim2SF infinity) with (S754_infinity false).
  destruct H as [H|[s H]]; rewrite H; simpl.
  - split; reflexivity.
  - destruct s; split; reflexivity.
Qed.

(** ** Intersection over union *)

(** C2, as the program has it: the IoU is the quotient of the
    intersection, [max(0, x2 - x1) * max(0, y2 - y1)] over the overlap
    corners, by the union, with no guard; when the union area is 0 the
    result is never 0: it is NaN when the intersection is 0 as well, and
    NaN or an infinity in any case. *)
Theorem compute_iou_unguarded (box1 box2 : Box) :
  compute_iou box1 box2 = (intersection_of box1 box2 / union_of box1 box2)%float /\
  intersection_of box1 box2 =
    (np_maximum 0 (np_minimum (bx2 box1) (bx2 box2) - np_maximum (bx1 box1) (bx1 box2))
     * np_maximum 0 (np_minimum (by2 box1) (by2 box2) - np_maximum (by1 box1) (by1 box2)))%float /\
  (is_zero (union_of box1 box2) = true ->
   is_zero (compute_iou box1 box2) = false /\
   is_finite (compute_iou box1 box2) = false /\
   (is_zero (intersection_of box1 box2) = true -> is_nan (compute_iou box1 box2) = true)).
Proof.
  split; [reflexivity|]. split; [reflexivity|].
  intros Hu.
  change (compute_iou box1 box2)
    with (intersection_of box1 box2 / union_of box1 box2)%float.
  pose proof (not_finite_not_zero _ (div_zero_cases (intersection_of box1 box2) _ Hu))
    as [Hz Hf].
  repeat split; try assumption.
  intros Hi. now apply zero_div_zero.
Qed.

(** C2, counterexample: a box of zero width against a box of zero height.
    The union area is 0 and the IoU is NaN, not 0. *)
Lemma compute_iou_degenerate_is_nan :
  is_zero (union_of (mkBox 1 1 1 3) (mkBox 2 2 5 2)) = true /\
  is_nan (compute_iou (mkBox 1 1 1 3) (mkBox 2 2 5 2)) = true /\
  (compute_iou (mkBox 1 1 1 3) (mkBox 2 2 5 2) =? 0)%float = false.
Proof. vm_compute. repeat split. Qed.

(** ** The evaluator without ground truth *)

(** C1, at the failing input: one image without labels and two
    predictions.  Both detections are false positives, the recall is 0/0
    and the evaluator returns NaN.  (With a single prediction the sum is
    empty and the result is 0.) *)
Theorem yolo_map_without_truths_is_nan :
  let self := mkModel 7 7 5 [] 0.6 0.3 0.5 448 448 0 0 in
  let preds := [(mkPred 0 0 10 10 0.9, [1%float]); (mkPred 20 20 30 30 0.8, [1%float])] in
  yolo_map self [None] [Some preds] = Returned nan /\
  yolo_map self [None] [Some (firstn 1 preds)] = Returned 0%float.
Proof. vm_compute. split; reflexivity. Qed.

(** ** The boundary of the suppression test *)

(** C3, at the failing input: two boxes whose IoU is exactly the overlap
    threshold 0.3.  The filter keeps the boxes whose IoU with the selected
    one is below the threshold and so drops the second box; the loop of
    the forward pass, which drops what is above 0.3, keeps it. *)
Theorem boundary_iou_is_suppressed :
  let self := mkModel 7 7 1 [(1, 1)%float] 0.6 0.3 0.5 448 448 0 0 in
  let a := mkPred 0 0 10 1 0.9 in
  let b := mkPred 0 0 3 1 0.8 in
  (compute_iou (box_of a) (box_of b) =? THRESH_OVERLAP self)%float = true /\
  yolo_filter_predictions self 3 [flat_row (a, [1%float]); flat_row (b, [1%float])]
    = Returned (Some [(a, [1%float])]) /\
  non_maximal_suppression [a; b] = Returned [a; b].
Proof. vm_compute. repeat split. Qed.

(** ** Matching predictions to labels *)

Lemma bind_Returned {A B : Type} (m : outcome A) (k : A -> outcome B) (b : B) :
  bind m k = Returned b -> exists a, m = Returned a /\ k a = Returned b.
Proof. destruct m; simpl; intros H; try discriminate. eauto. Qed.

Ltac bind_inv H :=
  let a := fresh "a" in
  let Ha := fresh "Ha" in
  apply bind_Returned in H; destruct H as (a & Ha & H).

Lemma argmax_scan_bound (ip : list float) (mp : float) (max_ind i : nat) :
  max_ind < i -> argmax_scan mp max_ind i ip < i + length ip.
Proof.
  revert mp max_ind i. induction ip as [|x ip IH]; intros mp max_ind i Hlt; simpl.
  - lia.
  - destruct (is_nan mp); [lia|].
    destruct (x <=? mp)%float.
    + specialize (IH mp max_ind (S i)). lia.
    + specialize (IH x i (S i)). lia.
Qed.

Lemma np_argmax_bound (ip : list float) (j : nat) :
  np_argmax ip = Returned j -> j < length ip.
Proof.
  destruct ip as [|x ip]; simpl; intros H; [discriminate|].
  injection H as <-. pose proof (argmax_scan_bound ip x 0 1). lia.
Qed.

Lemma assign_length {A : Type} (a : list A) (j : nat) (x : A) :
  length (assign a j x) = length a.
Proof.
  revert j. induction a as [|y a IH]; intros [|j]; simpl; auto.
Qed.

Lemma assign_nth {A : Type} (a : list A) (j k : nat) (x d : A) :
  j < length a ->
  nth k (assign a j x) d = if Nat.eqb k j then x else nth k a d.
Proof.
  revert j k. induction a as [|y a IH]; intros [|j] [|k]; simpl; intros H; try lia; auto.
  apply IH. lia.
Qed.

Lemma assign_count_true (a : list bool) (j : nat) :
  j < length a -> nth j a false = false ->
  count_true (assign a j true) = S (count_true a).
Proof.
  unfold count_true. revert j. induction a as [|y a IH]; intros [|j]; simpl; intros H Hn; try lia.
  - subst y. reflexivity.
  - destruct y; simpl; rewrite IH; auto; lia.
Qed.

Lemma count_true_le (a : list bool) : count_true a <= length a.
Proof. unfold count_true. apply filter_length_le. Qed.

Lemma match_predictions_confs (thresh : float) (rows : list (float * list float))
  (matched : list bool) (ds : list Detection) :
  match_predictions thresh rows matched = Returned ds ->
  map fst ds = map fst rows.
Proof.
  revert matched ds. induction rows as [|[conf ious] rows IH]; intros matched ds H; simpl in H.
  - injection H as <-. reflexivity.
  - bind_inv H.
    destruct ((thresh <=? nth a ious nan)%float && negb (nth a matched false));
      bind_inv H; injection H as <-; simpl; f_equal; eauto.
Qed.

Lemma match_predictions_count (thresh : float) (rows : list (float * list float))
  (matched : list bool) (ds : list Detection) :
  (forall row, In row rows -> length (snd row) = length matched) ->
  match_predictions thresh rows matched = Returned ds ->
  length (filter snd ds) + count_true matched <= length matched.
Proof.
  revert matched ds. induction rows as [|[conf ious] rows IH]; intros matched ds Hlen H; simpl in H.
  - injection H as <-. simpl. apply count_true_le.
  - bind_inv H.
    pose proof (np_argmax_bound _ _ Ha) as Hj.
    pose proof (Hlen (conf, ious) (or_introl eq_refl)) as Hl. simpl in Hl.
    rewrite Hl in Hj.
    destruct ((thresh <=? nth a ious nan)%float && negb (nth a matched false)) eqn:E;
      bind_inv H; injection H as <-; simpl.
    + apply andb_true_iff in E. destruct E as [_ E]. apply negb_true_iff in E.
      apply IH in Ha0.
      * rewrite assign_length, assign_count_true in Ha0 by assumption. lia.
      * intros row Hin. rewrite assign_length. apply Hlen. now right.
    + apply IH in Ha0; [assumption|]. intros row Hin. apply Hlen. now right.
Qed.

Lemma match_predictions_spec (thresh : float) (rows : list (float * list float))
  (matched : list bool) (ds : list Detection) :
  (forall row, In row rows -> length (snd row) = length matched) ->
  match_predictions thresh rows matched = Returned ds ->
  forall i conf ious, nth_error rows i = Some (conf, ious) ->
  exists j tp,
    np_argmax ious = Returned j /\
    nth_error ds i = Some (conf, tp) /\
    (tp = true <->
     (thresh <=? nth j ious nan)%float = true /\
     nth j matched false = false /\
     forall i' conf' ious', i' < i ->
       nth_error rows i' = Some (conf', ious') ->
       nth_error ds i' = Some (conf', true) ->
       np_argmax ious' <> Returned j).
Proof.
  revert matched ds.
  induction rows as [|[conf0 ious0] rows IH]; intros matched ds Hlen H i conf ious Hi.
  - destruct i; discriminate.
  - simpl in H. bind_inv H. rename a into j0.
    pose proof (np_argmax_bound _ _ Ha) as Hj0.
    pose proof (Hlen (conf0, ious0) (or_introl eq_refl)) as Hl. simpl in Hl.
    rewrite Hl in Hj0.
    destruct i as [|i].
    + (* the first prediction *)
      simpl in Hi. injection Hi as <- <-.
      destruct ((thresh <=? nth j0 ious0 nan)%float && negb (nth j0 matched false)) eqn:E;
        bind_inv H; injection H as <-.
      * apply andb_true_iff in E. destruct E as [E1 E2]. apply negb_true_iff in E2.
        exists j0, true. repeat split; auto. intros; lia.
      * exists j0, false. repeat split; auto; try discriminate.
        intros (E1 & E2 & _). rewrite E1, E2 in E. discriminate.
    + (* a later prediction *)
      simpl in Hi.
      destruct ((thresh <=? nth j0 ious0 nan)%float && negb (nth j0 matched false)) eqn:E;
        bind_inv H; injection H as <-.
      * apply andb_true_iff in E. destruct E as [E1 E2]. apply negb_true_iff in E2.
        destruct (IH _ _ (fun row Hin => eq_trans (Hlen row (or_intror Hin))
                                          (eq_sym (assign_length matched j0 true)))
                     Ha0 i conf ious Hi)
          as (j & tp & Hj & Hds & Htp).
        exists j, tp. repeat split; auto.
        -- apply Htp; assumption.
        -- apply Htp in H. destruct H as (_ & H & _).
           rewrite assign_nth in H by assumption.
           destruct (Nat.eqb j j0); [discriminate | assumption].
        -- intros [|i'] conf' ious' Hlt Hr Hd; simpl in Hr, Hd.
           ++ injection Hr as <- <-. rewrite Ha. intros Heq. injection Heq as ->.
              apply Htp in H. destruct H as (_ & H & _).
              rewrite assign_nth, Nat.eqb_refl in H by assumption. discriminate.
           ++ apply Htp in H. destruct H as (_ & _ & H).
              apply (H i' conf' ious'); auto. lia.
        -- intros (H1 & H2 & H3). apply Htp. repeat split; auto.
           ++ rewrite assign_nth by assumption.
              destruct (Nat.eqb j j0) eqn:Ej; [|assumption].
              apply Nat.eqb_eq in Ej. subst j.
              exfalso. apply (H3 0 conf0 ious0); simpl; auto. lia.
           ++ intros i' conf' ious' Hlt Hr Hd.
              apply (H3 (S i') conf' ious'); simpl; auto. lia.
      * destruct (IH _ _ (fun row Hin => Hlen row (or_intror Hin)) Ha0 i conf ious Hi)
          as (j & tp & Hj & Hds & Htp).
        exists j, tp. repeat split; auto.
        -- apply Htp; assumption.
        -- apply Htp; assumption.
        -- intros [|i'] conf' ious' Hlt Hr Hd; simpl in Hr, Hd.
           ++ injection Hd as _ Hd. discriminate.
           ++ apply Htp in H. destruct H as (_ & _ & H).
              apply (H i' conf' ious'); auto. lia.
        -- intros (H1 & H2 & H3). apply Htp. repeat split; auto.
           intros i' conf' ious' Hlt Hr Hd.
           apply (H3 (S i') conf' ious'); simpl; auto. lia.
Qed.

Lemma nth_error_combine_map {A B C : Type} (f : A -> B) (g : A -> C) (l : list A) (i : nat) :
  nth_error (combine (map f l) (map g l)) i
  = option_map (fun x => (f x, g x)) (nth_error l i).
Proof.
  revert i. induction l as [|a l IH]; intros [|i]; simpl; auto.
Qed.

Lemma image_detections_matched_once (self : DPPModel) (im_lab : list Label)
  (im_pred : list Row) (ds : list Detection) :
  image_detections self (Some im_lab) (Some im_pred) = Returned ds ->
  matched_once self im_lab im_pred ds.
Proof.
  unfold image_detections. intros H.
  set (rows := combine (map (fun r => p4 (fst r)) im_pred) (map (iou_row im_lab) im_pred)) in H.
  set (matched := map (fun _ : Label => false) im_lab) in H.
  assert (Hlen : forall row, In row rows -> length (snd row) = length matched).
  { intros row Hin. apply In_nth_error in Hin. destruct Hin as [i Hi].
    unfold rows in Hi. rewrite nth_error_combine_map in Hi.
    revert Hi.
    match goal with |- context[@nth_error ?A ?l i] => destruct (@nth_error A l i) end;
      simpl; intros Hi; [|discriminate].
    injection Hi as <-. simpl. unfold iou_row, matched. now rewrite !length_map. }
  assert (Hm : length matched = length im_lab) by (unfold matched; apply length_map).
  repeat split.
  - apply match_predictions_confs in H.
    apply (f_equal (@length float)) in H. rewrite !length_map in H.
    unfold rows in H. rewrite length_combine, !length_map, Nat.min_id in H. exact H.
  - intros i r Hi.
    assert (Hr : nth_error rows i = Some (p4 (fst r), iou_row im_lab r)).
    { unfold rows. rewrite nth_error_combine_map. rewrite Hi. reflexivity. }
    destruct (match_predictions_spec _ _ _ _ Hlen H i _ _ Hr) as (j & tp & Hj & Hd & Htp).
    exists j, tp. repeat split; auto.
    + pose proof (np_argmax_bound _ _ Hj) as Hb.
      unfold iou_row in Hb. now rewrite length_map in Hb.
    + apply Htp; assumption.
    + intros i' r' Hlt Hi' Hd'. apply Htp in H0. destruct H0 as (_ & _ & H0).
      apply (H0 i' (p4 (fst r')) (iou_row im_lab r')); auto.
      unfold rows. rewrite nth_error_combine_map. rewrite Hi'. reflexivity.
    + intros (H1 & H2). apply Htp. repeat split; auto.
      * unfold matched. clear. revert j. induction im_lab; intros [|j]; simpl; auto.
      * intros i' conf' ious' Hlt Hr' Hd'.
        unfold rows in Hr'. rewrite nth_error_combine_map in Hr'.
        revert Hr'.
        match goal with
        | |- context[@nth_error ?A ?l i'] => destruct (@nth_error A l i') as [r'|] eqn:Ei'
        end; simpl; intros Hr'; [|discriminate].
        injection Hr' as <- <-. apply (H2 i' r'); auto.
  - pose proof (match_predictions_count _ _ _ _ Hlen H). lia.
Qed.

(** C4: within each image a label is matched at most once.  The
    detections of the data set are the concatenation of the detections of
    its images; in an image with labels, prediction [i] is recorded as a
    true positive iff the label of its largest IoU reaches the correctness
    threshold and has not been claimed by an earlier true positive of the
    same image, and as a false positive otherwise; so an image has at most
    as many true positives as labels. *)
Theorem labels_matched_once_per_image (self : DPPModel)
  (images : list (option (list Label) * option (list Row))) (ds : list Detection) :
  all_detections self images = Returned ds ->
  matched_per_image self images ds.
Proof.
  revert ds. induction images as [|[im_lab im_pred] images IH]; intros ds H; simpl in H.
  - injection H as <-. exists []. split; [reflexivity | constructor].
  - bind_inv H. bind_inv H. injection H as <-.
    destruct (IH _ Ha0) as (dss & -> & HF).
    exists (a :: dss). split; [reflexivity|].
    constructor; [|assumption]. split; [assumption|].
    destruct im_lab as [im_lab|], im_pred as [im_pred|]; simpl in Ha;
      try (injection Ha as <-; reflexivity).
    now apply image_detections_matched_once.
Qed.

(** A data set of two images: the first has one label and two
    predictions on it, the second has no label. *)
Lemma labels_matched_once_per_image_witness :
  matched_per_image
    (mkModel 7 7 5 [] 0.6 0.3 0.5 448 448 0 0)
    [(Some [mkLabel 1 0 (mkBox 50 0 70 20)],
      Some [(mkPred 52 2 72 22 0.9, [1%float]); (mkPred 51 1 71 21 0.8, [1%float])]);
     (None, Some [(mkPred 0 0 10 10 0.7, [1%float])])]
    [(0.9%float, true); (0.8%float, false); (0.7%float, false)].
Proof.
  apply labels_matched_once_per_image. vm_compute. reflexivity.
Defined.

(** ** The responsible box of a cell *)

Lemma argmax_scan_max (v : nat -> float) (l : list float) :
  forall mp max_ind i,
  (forall t, t < length l -> nth t l nan = v (i + t)) ->
  mp = v max_ind -> max_ind < i ->
  (is_nan mp = false ->
   (forall t, t < i -> (v t <=? mp)%float = true) /\
   (forall t, t < max_ind -> (v t <? mp)%float = true)) ->
  is_nan (v (argmax_scan mp max_ind i l)) = false ->
  (forall t, t < i + length l -> (v t <=? v (argmax_scan mp max_ind i l))%float = true) /\
  (forall t, t < argmax_scan mp max_ind i l ->
     (v t <? v (argmax_scan mp max_ind i l))%float = true).
Proof.
  induction l as [|x l IH]; intros mp max_ind i Hv Hmp Hlt Hinv; simpl.
  - rewrite <- Hmp, Nat.add_0_r. exact Hinv.
  - destruct (is_nan mp) eqn:Enan.
    { rewrite <- Hmp. congruence. }
    specialize (Hinv eq_refl). destruct Hinv as [Hle Hlt'].
    assert (Hx : x = v i).
    { specialize (Hv 0). simpl in Hv. rewrite Nat.add_0_r in Hv. apply Hv. lia. }
    assert (Hv' : forall t, t < length l -> nth t l nan = v (S i + t)).
    { intros t Ht. specialize (Hv (S t)). simpl in Hv.
      rewrite Nat.add_succ_r in Hv. apply Hv. lia. }
    destruct (x <=? mp)%float eqn:Exm.
    + intros Hk.
      destruct (IH mp max_ind (S i) Hv' Hmp (Nat.lt_lt_succ_r _ _ Hlt)) as [H1 H2]; auto.
      * intros _. split; [|assumption].
        intros t Ht. destruct (Nat.eq_dec t i) as [->|Hne].
        -- now rewrite <- Hx.
        -- apply Hle. lia.
      * split; [|assumption]. intros t Ht. apply H1. simpl in Ht. lia.
    + intros Hk.
      destruct (IH x i (S i) Hv' Hx (Nat.lt_succ_diag_r i)) as [H1 H2]; auto.
      * intros Hxn. pose proof (leb_total x mp Hxn Enan Exm) as Hmx.
        split.
        -- intros t Ht. destruct (Nat.eq_dec t i) as [->|Hne].
           ++ rewrite <- Hx. now apply leb_refl.
           ++ apply ltb_leb, (leb_ltb_trans _ mp); [apply Hle; lia | assumption].
        -- intros t Ht. apply (leb_ltb_trans _ mp); [apply Hle; lia | assumption].
      * split; [|assumption]. intros t Ht. apply H1. simpl in Ht. lia.
Qed.

Lemma np_argmax_lowest (confs : list float) (k : nat) :
  np_argmax confs = Returned k ->
  exists conf, lowest_argmax confs k conf.
Proof.
  intros H. pose proof (np_argmax_bound _ _ H) as Hk.
  destruct (nth_error confs k) as [conf|] eqn:Ek;
    [| apply nth_error_None in Ek; lia].
  exists conf. split; [assumption|]. intros Hnan i c Hi.
  destruct confs as [|x l]; [discriminate|]. simpl in H. injection H as H.
  set (v := fun t => nth t (x :: l) nan).
  assert (Hvk : v k = conf) by (unfold v; now apply nth_error_nth).
  assert (Hvi : v i = c) by (unfold v; now apply nth_error_nth).
  assert (Hi' : i < length (x :: l)) by (apply nth_error_Some; congruence).
  destruct (argmax_scan_max v l x 0 1) as [H1 H2].
  - intros t Ht. reflexivity.
  - reflexivity.
  - lia.
  - intros Hx. split.
    + intros t Ht. assert (t = 0) as -> by lia. now apply leb_refl.
    + intros t Ht. lia.
  - rewrite H. now rewrite Hvk.
  - rewrite H in H1, H2. rewrite Hvk in H1, H2. rewrite <- Hvi. split.
    + apply H1. simpl in Hi'. lia.
    + apply H2.
Qed.

Lemma mapM_nth_error {A B : Type} (f : A -> outcome B) (l : list A) (out : list B) :
  mapM f l = Returned out ->
  length out = length l /\
  forall i a, nth_error l i = Some a ->
    exists b, f a = Returned b /\ nth_error out i = Some b.
Proof.
  revert out. induction l as [|a0 l IH]; intros out H; simpl in H.
  - injection H as <-. split; [reflexivity|]. intros [|i] a Hi; discriminate.
  - bind_inv H. bind_inv H. injection H as <-.
    destruct (IH _ Ha0) as [Hl Hn]. split; [simpl; congruence|].
    intros [|i] a' Hi; simpl in Hi.
    + injection Hi as <-. eauto.
    + apply Hn. assumption.
Qed.

Lemma boolean_index_map {A : Type} (f : A -> bool) (l : list A) :
  boolean_index l (map f l) = filter f l.
Proof.
  induction l as [|a l IH]; simpl; [reflexivity|].
  destruct (f a); now rewrite IH.
Qed.

Lemma index_Returned {A : Type} (l : list A) (i : nat) (a : A) :
  index l i = Returned a <-> nth_error l i = Some a.
Proof.
  unfold index. destruct (nth_error l i); split; congruence.
Qed.



(** ** The coordinate conversion *)


Lemma reshape5_concat (f : nat -> Pred) (l : list nat) (rest : list float) :
  reshape5 (length l)
    (concat (map (fun b => [p0 (f b); p1 (f b); p2 (f b); p3 (f b); p4 (f b)]) l) ++ rest)
  = Returned (map f l).
Proof.
  induction l as [|b l IH]; simpl; [reflexivity|].
  rewrite IH. simpl. destruct (f b). reflexivity.
Qed.




Lemma nth_error_map_seq {A : Type} (f : nat -> A) (n j : nat) :
  j < n -> nth_error (map f (seq 0 n)) j = Some (f j).
Proof.
  intros Hj. rewrite nth_error_map, nth_error_seq.
  destruct (Nat.ltb_spec j n); [reflexivity | lia].
Qed.


Lemma nth_map_in {A B : Type} (f : A -> B) (l : list A) (j : nat) (da : A) (db : B) :
  j < length l -> nth j (map f l) db = f (nth j l da).
Proof.
  intros Hj. rewrite (nth_indep _ db (f da)) by (now rewrite length_map).
  apply map_nth.
Qed.

Lemma skipn_concat5 (f : nat -> Pred) (l : list nat) (rest : list float) :
  skipn (length l * 5)
    (concat (map (fun b => [p0 (f b); p1 (f b); p2 (f b); p3 (f b); p4 (f b)]) l) ++ rest)
  = rest.
Proof.
  induction l as [|b l IH]; simpl; [reflexivity | exact IH].
Qed.



(** ** Patch stitching *)

Lemma index_nth {A : Type} (l : list A) (i : nat) (a d : A) :
  index l i = Returned a -> nth i l d = a.
Proof. intros H. apply index_Returned in H. now apply nth_error_nth. Qed.

Lemma index_firstn_skipn (l : list float) (s t : nat) (a : float) (n : nat) :
  index (firstn n (skipn s l)) t = Returned a -> nth (s + t) l nan = a.
Proof.
  intros H. apply index_Returned in H.
  assert (Ht : t < n).
  { destruct (Nat.lt_ge_cases t n) as [|Hge]; [assumption|].
    assert (nth_error (firstn n (skipn s l)) t = None).
    { apply nth_error_None. rewrite length_firstn. lia. }
    congruence. }
  rewrite nth_error_firstn in H.
  destruct (Nat.ltb_spec t n); [|lia].
  rewrite nth_error_skipn in H. now apply nth_error_nth.
Qed.

Lemma patch_cell_stitched (expit np_exp : float -> float) (self : DPPModel)
  (num_patches_horiz : Z) (img_data : list (list float)) (i j : nat) (bs : list PredBox) :
  patch_cell expit np_exp self num_patches_horiz img_data i j = Returned bs ->
  stitched_cell expit np_exp self num_patches_horiz img_data i j bs.
Proof.
  unfold patch_cell. intros H.
  bind_inv H. rename a into patch. rename Ha into Hpatch.
  bind_inv H. rename a into c1. rename Ha into H1.
  bind_inv H. rename a into c2. rename Ha into H2.
  bind_inv H. rename a into c3. rename Ha into H3.
  bind_inv H. rename a into c4. rename Ha into H4.
  bind_inv H. rename a into c5. rename Ha into H5.
  bind_inv H. rename a into k. rename Ha into Hk.
  bind_inv H. rename a into conf. rename Ha into Hconf.
  apply index_Returned in Hpatch.
  exists patch, k, conf. split; [assumption|].
  assert (Hconfs : map (fun b => expit (nth (j * 26 + 5 * b + 4) patch nan)) [0; 1; 2; 3; 4]
                   = [expit c1; expit c2; expit c3; expit c4; expit c5]).
  { cbn [map].
    replace (j * 26 + 5 * 0 + 4) with (j * 26 + 4) by lia.
    replace (j * 26 + 5 * 1 + 4) with (j * 26 + 9) by lia.
    replace (j * 26 + 5 * 2 + 4) with (j * 26 + 14) by lia.
    replace (j * 26 + 5 * 3 + 4) with (j * 26 + 19) by lia.
    replace (j * 26 + 5 * 4 + 4) with (j * 26 + 24) by lia.
    now rewrite (index_nth _ _ _ nan H1), (index_nth _ _ _ nan H2),
      (index_nth _ _ _ nan H3), (index_nth _ _ _ nan H4), (index_nth _ _ _ nan H5). }
  split.
  { rewrite Hconfs. destruct (np_argmax_lowest _ _ Hk) as (conf' & Hc & Hmax).
    apply index_Returned in Hconf.
    assert (conf' = conf) by congruence. subst conf'. split; assumption. }
  destruct (0.6 <? conf)%float.
  2:{ injection H as <-. split; [reflexivity | discriminate]. }
  split; [discriminate|]. intros _.
  bind_inv H. rename a into tx. rename Ha into Htx.
  bind_inv H. rename a into local_x. rename Ha into Hlx.
  bind_inv H. rename a into ty. rename Ha into Hty.
  bind_inv H. rename a into local_y. rename Ha into Hly.
  bind_inv H. rename a into prior. rename Ha into Hprior.
  bind_inv H. rename a into tw. rename Ha into Htw.
  bind_inv H. rename a into scale_w. rename Ha into Hsw.
  bind_inv H. rename a into th. rename Ha into Hth.
  bind_inv H. rename a into scale_h. rename Ha into Hsh.
  bind_inv H. rename a into x1. rename Ha into Hx1.
  bind_inv H. rename a into y1. rename Ha into Hy1.
  bind_inv H. rename a into x2. rename Ha into Hx2.
  bind_inv H. rename a into y2. rename Ha into Hy2.
  injection H as <-.
  apply index_firstn_skipn in Htx, Hty, Htw, Hth.
  rewrite Nat.add_0_r in Htx.
  unfold py_truediv in Hsw, Hsh.
  destruct (grid_w self =? 0)%Z; [discriminate|]. injection Hsw as <-.
  destruct (grid_h self =? 0)%Z; [discriminate|]. injection Hsh as <-.
  apply index_Returned in Hprior.
  exists local_x, local_y, prior, x1, y1, x2, y2.
  rewrite Htx, Hty, Htw, Hth. unfold stitch. simpl.
  repeat split; assumption.
Qed.

(** With several images the list of boxes is carried from one image to
    the next: the last suppression runs over the boxes of all of them. *)
Lemma interpret_images_pool (expit np_exp : float -> float) (self : DPPModel)
  (num_patches_horiz num_patches_vert : Z) (total_outputs : list (list (list float))) :
  forall total_pred_boxes interpreted out,
  total_outputs <> [] ->
  interpret_images expit np_exp self num_patches_horiz num_patches_vert
                   total_outputs total_pred_boxes interpreted = Returned out ->
  exists pools,
    mapM (image_boxes expit np_exp self num_patches_horiz num_patches_vert) total_outputs
      = Returned pools /\
    non_maximal_suppression (map as_floats (total_pred_boxes ++ concat pools)) = Returned out.
Proof.
  induction total_outputs as [|img_data rest IH]; intros total interpreted out Hne H;
    [congruence|].
  simpl in H. bind_inv H. rename a into boxes. bind_inv H. rename a into kept.
  simpl. rewrite Ha. simpl.
  destruct rest as [|img' rest'].
  - simpl in H. injection H as <-. exists [boxes]. simpl. rewrite app_nil_r. auto.
  - destruct (IH _ _ _ ltac:(discriminate) H) as (pools & Hp & Hn).
    rewrite Hp. simpl. exists (boxes :: pools). split; [reflexivity|].
    simpl. now rewrite app_assoc.
Qed.



(** ** Sorted lists *)

Lemma StronglySorted_app_last {A : Type} (R : A -> A -> Prop) (l : list A) (x : A) :
  StronglySorted R l -> Forall (fun a => R a x) l -> StronglySorted R (l ++ [x]).
Proof.
  induction 1 as [|a l Hl IH Ha]; intros HF; simpl.
  - repeat constructor.
  - inversion HF; subst. constructor; [auto|].
    apply Forall_app. split; [assumption|]. now constructor.
Qed.

Lemma StronglySorted_app_inv {A : Type} (R : A -> A -> Prop) (l : list A) (x : A) :
  StronglySorted R (l ++ [x]) -> StronglySorted R l /\ Forall (fun a => R a x) l.
Proof.
  induction l as [|a l IH]; simpl; intros H.
  - split; constructor.
  - inversion H as [|? ? Hs HF]; subst. destruct (IH Hs) as [H1 H2].
    apply Forall_app in HF. destruct HF as [HF1 HF2]. inversion HF2; subst.
    split; constructor; assumption.
Qed.

Lemma StronglySorted_filter {A : Type} (R : A -> A -> Prop) (f : A -> bool) (l : list A) :
  StronglySorted R l -> StronglySorted R (filter f l).
Proof.
  induction 1 as [|a l Hl IH Ha]; simpl; [constructor|].
  destruct (f a); [|assumption]. constructor; [assumption|].
  rewrite Forall_forall in *. intros x Hx. apply filter_In in Hx. apply Ha. tauto.
Qed.

Lemma StronglySorted_rev {A : Type} (R : A -> A -> Prop) (l : list A) :
  StronglySorted R l -> StronglySorted (fun a b => R b a) (rev l).
Proof.
  induction 1 as [|a l Hl IH Ha]; simpl; [constructor|].
  apply StronglySorted_app_last; [assumption|].
  rewrite Forall_forall in *. intros x Hx. apply Ha. now apply in_rev.
Qed.

Lemma StronglySorted_map {A B : Type} (R : B -> B -> Prop) (f : A -> B) (l : list A) :
  StronglySorted (fun a b => R (f a) (f b)) l -> StronglySorted R (map f l).
Proof.
  induction 1 as [|a l Hl IH Ha]; simpl; constructor; [assumption|].
  rewrite Forall_forall in *. intros y Hy. apply in_map_iff in Hy.
  destruct Hy as (x & <- & Hx). now apply Ha.
Qed.

Lemma StronglySorted_nth {A : Type} (R : A -> A -> Prop) (l : list A) :
  StronglySorted R l ->
  forall i j a b, i < j -> nth_error l i = Some a -> nth_error l j = Some b -> R a b.
Proof.
  induction 1 as [|x l Hl IH Hx]; intros i j a b Hij Hi Hj.
  - destruct i; discriminate.
  - destruct j as [|j]; [lia|]. simpl in Hj. destruct i as [|i]; simpl in Hi.
    + injection Hi as <-. rewrite Forall_forall in Hx. apply Hx.
      eapply nth_error_In; eassumption.
    + apply (IH i j); auto. lia.
Qed.

(** ** The suppression loop *)

Section Loop.

Variable thresh : float.
Variable pair_iou : list (list float).

Local Abbreviation kept_by := (kept_by thresh pair_iou).

Lemma last_cases {A : Type} (l : list A) : l = [] \/ exists l' x, l = l' ++ [x].
Proof. induction l using rev_ind; eauto. Qed.

Lemma last_index_app {A : Type} (l : list A) (x : A) : last_index (l ++ [x]) = Some x.
Proof. unfold last_index. now rewrite rev_unit. Qed.

Lemma np_any_map {A : Type} (f : A -> bool) (l : list A) :
  np_any (map f l) = existsb f l.
Proof. unfold np_any. induction l; simpl; congruence. Qed.

Lemma nms_while_nil (fuel : nat) (acc : list nat) :
  nms_while (S fuel) thresh pair_iou [] acc = Returned acc.
Proof. reflexivity. Qed.

Lemma nms_while_step (fuel : nat) (l : list nat) (cur : nat) (acc : list nat) :
  nms_while (S fuel) thresh pair_iou (l ++ [cur]) acc
  = if existsb (kept_by cur) (l ++ [cur])
    then nms_while fuel thresh pair_iou (filter (kept_by cur) (l ++ [cur])) (acc ++ [cur])
    else Returned (acc ++ [cur]).
Proof.
  simpl. rewrite last_index_app.
  change (fun j => (at2 pair_iou cur j <? thresh)%float) with (kept_by cur).
  now rewrite np_any_map, boolean_index_map.
Qed.

(** A selected box that does not suppress itself is selected again and
    again. *)
Lemma nms_while_self_kept (cur : nat) :
  kept_by cur cur = true ->
  forall fuel l acc, nms_while fuel thresh pair_iou (l ++ [cur]) acc = Unfinished.
Proof.
  intros Hself. induction fuel as [|fuel IH]; intros l acc; [reflexivity|].
  rewrite nms_while_step.
  rewrite existsb_app. simpl. rewrite Hself, orb_true_r.
  rewrite filter_app. simpl. rewrite Hself. apply IH.
Qed.

Lemma nms_while_picks (fuel : nat) :
  forall order acc out,
  nms_while fuel thresh pair_iou order acc = Returned out ->
  exists picks,
    out = acc ++ picks /\
    incl picks order /\
    StronglySorted (fun a b => kept_by a b = true) picks /\
    Forall (fun a => kept_by a a = false) picks /\
    (order = [] \/ picks <> []).
Proof.
  induction fuel as [|fuel IH]; intros order acc out H; [discriminate|].
  destruct (last_cases order) as [->|(l & cur & ->)].
  - rewrite nms_while_nil in H. injection H as <-.
    exists []. rewrite app_nil_r. split; [reflexivity|].
    split; [intros x []|]. split; [constructor|]. split; [constructor | now left].
  - rewrite nms_while_step in H.
    destruct (kept_by cur cur) eqn:Eself.
    { rewrite existsb_app in H. simpl in H. rewrite Eself, orb_true_r in H.
      rewrite filter_app in H. simpl in H. rewrite Eself in H.
      now rewrite nms_while_self_kept in H. }
    destruct (existsb (kept_by cur) (l ++ [cur])).
    + destruct (IH _ _ _ H) as (picks & -> & Hincl & Hs & Hf & _).
      exists (cur :: picks). rewrite <- app_assoc. simpl.
      split; [reflexivity|]. split; [|split; [|split]].
      * intros x [<-|Hx]; [apply in_or_app; right; now left|].
        apply Hincl in Hx. apply filter_In in Hx. tauto.
      * constructor; [assumption|]. rewrite Forall_forall. intros x Hx.
        apply Hincl in Hx. apply filter_In in Hx. tauto.
      * now constructor.
      * right. discriminate.
    + injection H as <-. exists [cur]. split; [reflexivity|]. split; [|split; [|split]].
      * intros x [<-|[]]. apply in_or_app. right. now left.
      * repeat constructor.
      * repeat constructor. assumption.
      * right. discriminate.
Qed.



End Loop.

(** ** [np.argsort] on numbers *)

Section Argsort.

Variable v : nat -> float.

Local Abbreviation descending := (StronglySorted (fun a b => (v b <=? v a)%float = true)).
Local Abbreviation ascending := (StronglySorted (fun a b => (v a <=? v b)%float = true)).

Lemma insert_left_In (vi : nat) (sorted : list nat) (x : nat) :
  In x (insert_left v vi sorted) <-> x = vi \/ In x sorted.
Proof.
  induction sorted as [|vk rest IH]; simpl.
  - intuition.
  - destruct (np_lt (v vi) (v vk)); simpl; [rewrite IH|]; intuition.
Qed.

Lemma insert_left_descending (vi : nat) (sorted : list nat) :
  is_nan (v vi) = false -> Forall (fun x => is_nan (v x) = false) sorted ->
  descending sorted -> descending (insert_left v vi sorted).
Proof.
  intros Hvi Hnan Hs. induction Hs as [|vk rest Hrest IH Hvk]; simpl.
  - repeat constructor.
  - inversion Hnan as [|? ? Hk Hnan']; subst.
    rewrite np_lt_ltb by assumption.
    destruct (v vi <? v vk)%float eqn:E.
    + constructor; [auto|]. rewrite Forall_forall in *. intros x Hx.
      apply insert_left_In in Hx. destruct Hx as [->|Hx]; [now apply ltb_leb | auto].
    + pose proof (ltb_total _ _ Hvi Hk E) as Hle.
      constructor; [now constructor|]. constructor; [assumption|].
      rewrite Forall_forall in *. intros x Hx. eapply leb_trans; [apply Hvk|]; eauto.
Qed.

Lemma fold_insert_left (l : list nat) :
  forall sorted,
  Forall (fun x => is_nan (v x) = false) l ->
  Forall (fun x => is_nan (v x) = false) sorted ->
  descending sorted ->
  descending (fold_left (fun sorted vi => insert_left v vi sorted) l sorted) /\
  forall x, In x (fold_left (fun sorted vi => insert_left v vi sorted) l sorted)
            <-> In x l \/ In x sorted.
Proof.
  induction l as [|vi l IH]; intros sorted Hl Hs Hd; simpl.
  - split; [assumption | intuition].
  - inversion Hl as [|? ? Hvi Hl']; subst.
    destruct (IH (insert_left v vi sorted)) as [H1 H2]; auto.
    + rewrite Forall_forall in *. intros x Hx. apply insert_left_In in Hx.
      destruct Hx as [->|Hx]; auto.
    + now apply insert_left_descending.
    + split; [assumption|]. intros x. rewrite H2, insert_left_In. intuition.
Qed.


End Argsort.

Lemma np_argsort_ascending (keys : list float) :
  Forall (fun k => is_nan k = false) keys ->
  StronglySorted (fun a b => (nth a keys nan <=? nth b keys nan)%float = true) (np_argsort keys) /\
  forall x, In x (np_argsort keys) <-> x < length keys.
Proof.
  intros Hnan. unfold np_argsort.
  destruct (fold_insert_left (fun i => nth i keys nan) (seq 0 (length keys)) []) as [H1 H2].
  - rewrite Forall_forall in *. intros x Hx. apply in_seq in Hx.
    apply Hnan, nth_In. lia.
  - constructor.
  - constructor.
  - split.
    + apply StronglySorted_rev in H1. exact H1.
    + intros x. rewrite <- in_rev, H2, in_seq. simpl. intuition lia.
Qed.


(** ** The order of the filtered predictions *)

Section Descending.

Variable thresh : float.
Variable pair_iou : list (list float).
Variable key : nat -> float.

Local Abbreviation descending := (StronglySorted (fun a b => (key b <=? key a)%float = true)).
Local Abbreviation ascending := (StronglySorted (fun a b => (key a <=? key b)%float = true)).

Lemma nms_while_descending (fuel : nat) :
  forall order acc out,
  nms_while fuel thresh pair_iou order acc = Returned out ->
  Forall (fun x => is_nan (key x) = false) order ->
  ascending order -> descending acc ->
  (forall a b, In a acc -> In b order -> (key b <=? key a)%float = true) ->
  descending out.
Proof.
  induction fuel as [|fuel IH]; intros order acc out H Hnan Hasc Hdesc Hle; [discriminate|].
  destruct (last_cases order) as [->|(l & cur & ->)].
  - rewrite nms_while_nil in H. now injection H as <-.
  - rewrite nms_while_step in H.
    assert (Hacc : descending (acc ++ [cur])).
    { apply StronglySorted_app_last; [assumption|].
      rewrite Forall_forall. intros a Ha. apply Hle; [assumption|].
      apply in_or_app. right. now left. }
    destruct (existsb (kept_by thresh pair_iou cur) (l ++ [cur])).
    + apply (IH _ _ _ H).
      * rewrite Forall_forall in *. intros x Hx. apply filter_In in Hx. apply Hnan. tauto.
      * now apply StronglySorted_filter.
      * assumption.
      * intros a b Ha Hb. apply filter_In in Hb. destruct Hb as [Hb _].
        apply in_app_or in Ha. destruct Ha as [Ha|[<-|[]]]; [now apply Hle|].
        apply StronglySorted_app_inv in Hasc. destruct Hasc as [_ Hall].
        apply in_app_or in Hb. destruct Hb as [Hb|[<-|[]]].
        -- rewrite Forall_forall in Hall. now apply Hall.
        -- apply leb_refl. rewrite Forall_forall in Hnan. apply Hnan.
           apply in_or_app. right. now left.
    + now injection H as <-.
Qed.

End Descending.

(** ** The filter as a whole *)

Lemma mapM_Forall2 {A B : Type} (f : A -> outcome B) (l : list A) (out : list B) :
  mapM f l = Returned out -> Forall2 (fun a b => f a = Returned b) l out.
Proof.
  revert out. induction l as [|a l IH]; intros out H; simpl in H.
  - injection H as <-. constructor.
  - bind_inv H. bind_inv H. injection H as <-. constructor; auto.
Qed.

Lemma Forall2_In_r {A B : Type} (R : A -> B -> Prop) (l : list A) (l' : list B) (b : B) :
  Forall2 R l l' -> In b l' -> exists a, In a l /\ R a b.
Proof.
  induction 1 as [|x y l l' Hxy HF IH]; intros Hin; [destruct Hin|].
  destruct Hin as [<-|Hin].
  - exists x. split; [now left | assumption].
  - destruct (IH Hin) as (a & Ha & HR). exists a. split; [now right | assumption].
Qed.


Lemma at2_pairwise (l : list (Pred * list float)) (a b : nat) (ra rb : Pred * list float) :
  nth_error l a = Some ra -> nth_error l b = Some rb ->
  at2 (pairwise_iou l) a b = compute_iou (box_of (fst ra)) (box_of (fst rb)).
Proof.
  intros Ha Hb. unfold at2, pairwise_iou.
  assert (Hla : a < length l) by (apply nth_error_Some; congruence).
  assert (Hlb : b < length l) by (apply nth_error_Some; congruence).
  rewrite (nth_map_in _ l a ra []) by assumption.
  rewrite (nth_map_in _ l b rb nan) by assumption.
  now rewrite (nth_error_nth _ _ _ Ha), (nth_error_nth _ _ _ Hb).
Qed.

(** What a run of the second half of the filter that returns an array
    went through. *)
Lemma detection_filter_inv (self : DPPModel) (fuel : nat)
  (preds out : list (Pred * list float)) :
  detection_filter self fuel preds = Returned (Some out) ->
  exists picks,
    nms_while fuel (THRESH_OVERLAP self)
      (pairwise_iou (filter (fun r => (THRESH_SIG self <? p4 (fst r))%float) preds))
      (np_argsort (map (fun r => p4 (fst r))
                       (filter (fun r => (THRESH_SIG self <? p4 (fst r))%float) preds))) []
    = Returned picks /\
    Forall2 (fun i r =>
               nth_error (filter (fun r => (THRESH_SIG self <? p4 (fst r))%float) preds) i
               = Some r) picks out /\
    filter (fun r => (THRESH_SIG self <? p4 (fst r))%float) preds <> [].
Proof.
  unfold detection_filter, sig_mask. rewrite np_any_map, boolean_index_map.
  destruct (existsb _ preds) eqn:Eany; simpl; [|discriminate].
  intros H. bind_inv H. rename a into picks. bind_inv H. injection H as <-.
  exists picks. split; [assumption|]. split.
  - apply mapM_Forall2 in Ha0.
    eapply Forall2_impl; [|exact Ha0]. intros i r Hi. now apply index_Returned.
  - apply existsb_exists in Eany. destruct Eany as (r & Hr & Hsig).
    intros Hnil. assert (Hin : In r (filter (fun r => (THRESH_SIG self <? p4 (fst r))%float) preds))
      by (apply filter_In; auto).
    rewrite Hnil in Hin. destruct Hin.
Qed.

Lemma detection_filter_descending (self : DPPModel) (fuel : nat)
  (preds out : list (Pred * list float)) :
  detection_filter self fuel preds = Returned (Some out) ->
  StronglySorted (fun a b => (p4 (fst b) <=? p4 (fst a))%float = true) out /\
  Forall (fun r => (THRESH_SIG self <? p4 (fst r))%float = true) out /\
  out <> [].
Proof.
  intros H. apply detection_filter_inv in H. destruct H as (picks & Hloop & Hout & Hne).
  set (preds1 := filter (fun r => (THRESH_SIG self <? p4 (fst r))%float) preds) in *.
  set (keys := map (fun r : Pred * list float => p4 (fst r)) preds1) in *.
  assert (Hnan : Forall (fun k => is_nan k = false) keys).
  { unfold keys. rewrite Forall_forall. intros k Hk. apply in_map_iff in Hk.
    destruct Hk as (r & <- & Hr). apply filter_In in Hr. destruct Hr as [_ Hr].
    now apply ltb_not_nan in Hr. }
  destruct (np_argsort_ascending keys Hnan) as [Hasc Hin].
  assert (Hdesc : StronglySorted (fun a b => (nth b keys nan <=? nth a keys nan)%float = true) picks).
  { apply (nms_while_descending _ _ (fun i => nth i keys nan) _ _ _ _ Hloop).
    - rewrite Forall_forall in *. intros x Hx. apply Hnan, nth_In. now apply Hin.
    - exact Hasc.
    - constructor.
    - intros a b []. }
  assert (Hkey : forall i r, nth_error preds1 i = Some r -> nth i keys nan = p4 (fst r)).
  { intros i r Hi. unfold keys.
    rewrite (nth_map_in _ preds1 i r nan) by (apply nth_error_Some; congruence).
    now rewrite (nth_error_nth _ _ _ Hi). }
  split; [|split].
  - clear Hloop. induction Hout as [|i r picks out Hi Hout IH]; [constructor|].
    inversion Hdesc as [|? ? Hd HF]; subst. constructor; [auto|].
    rewrite Forall_forall in *. intros r' Hr'.
    destruct (Forall2_In_r _ _ _ _ Hout Hr') as (i' & Hi' & Hr'').
    rewrite <- (Hkey _ _ Hi), <- (Hkey _ _ Hr''). now apply HF.
  - clear Hdesc Hloop. induction Hout as [|i r picks out Hi Hout IH]; constructor; auto.
    apply nth_error_In in Hi. apply filter_In in Hi. tauto.
  - destruct (nms_while_picks _ _ _ _ _ _ Hloop) as (picks' & -> & _ & _ & _ & Hor).
    simpl in *. destruct Hor as [Hnil|Hp].
    + exfalso. assert (Hl : length (np_argsort keys) = 0) by now rewrite Hnil.
      destruct preds1 as [|r0 preds1']; [now apply Hne|].
      assert (In 0 (np_argsort keys)) by (apply Hin; unfold keys; simpl; lia).
      rewrite Hnil in H. destruct H.
    + intros ->. inversion Hout. subst. now apply Hp.
Qed.

Lemma Forall2_nth_error_l {A B : Type} (R : A -> B -> Prop) (l : list A) (l' : list B)
  (i : nat) (a : A) :
  Forall2 R l l' -> nth_error l i = Some a -> exists b, nth_error l' i = Some b /\ R a b.
Proof.
  intros HF. revert i. induction HF as [|x y l l' Hxy HF IH]; intros [|i] Hi; try discriminate.
  - injection Hi as <-. exists y. auto.
  - apply IH. assumption.
Qed.







(** ** The overlap threshold *)




(** ** More on the prediction filter *)

Lemma nms_while_first (thresh : float) (pair_iou : list (list float)) (fuel : nat)
  (l : list nat) (cur : nat) (acc out : list nat) :
  nms_while fuel thresh pair_iou (l ++ [cur]) acc = Returned out ->
  exists rest, out = acc ++ cur :: rest.
Proof.
  destruct fuel as [|fuel]; [discriminate|]. rewrite nms_while_step.
  destruct (existsb _ _).
  - intros H. destruct (nms_while_picks _ _ _ _ _ _ H) as (picks & -> & _).
    exists picks. now rewrite <- app_assoc.
  - intros H. injection H as <-. now exists [].
Qed.

Lemma nms_while_terminates (thresh : float) (pair_iou : list (list float)) (fuel : nat) :
  forall order acc,
  order <> [] -> length order <= fuel ->
  (forall x, In x order -> kept_by thresh pair_iou x x = false) ->
  exists out, nms_while fuel thresh pair_iou order acc = Returned out.
Proof.
  induction fuel as [|fuel IH]; intros order acc Hne Hlen Hself.
  - destruct order; [congruence | simpl in Hlen; lia].
  - destruct (last_cases order) as [->|(l & cur & ->)]; [congruence|].
    rewrite nms_while_step.
    destruct (existsb (kept_by thresh pair_iou cur) (l ++ [cur])) eqn:E; [|eauto].
    assert (Hcur : kept_by thresh pair_iou cur cur = false)
      by (apply Hself, in_or_app; right; now left).
    rewrite filter_app. simpl. rewrite Hcur, app_nil_r.
    rewrite existsb_app in E. simpl in E. rewrite Hcur, orb_false_r in E.
    apply IH.
    + apply existsb_exists in E. destruct E as (x & Hx & Hk).
      intros Hnil. assert (Hin : In x (filter (kept_by thresh pair_iou cur) l))
        by (apply filter_In; auto).
      rewrite Hnil in Hin. destruct Hin.
    + pose proof (filter_length_le (kept_by thresh pair_iou cur) l).
      rewrite length_app in Hlen. simpl in Hlen. lia.
    + intros x Hx. apply filter_In in Hx. apply Hself, in_or_app. tauto.
Qed.

Lemma mapM_index_in_range {A : Type} (l : list A) (idxs : list nat) :
  (forall i, In i idxs -> i < length l) -> exists out, mapM (index l) idxs = Returned out.
Proof.
  induction idxs as [|i idxs IH]; intros H; simpl; [eauto|].
  destruct (nth_error l i) as [a|] eqn:E.
  - unfold index at 1. rewrite E. simpl.
    destruct IH as [out Hout]; [intros; apply H; now right|].
    rewrite Hout. simpl. eauto.
  - apply nth_error_None in E. specialize (H i (or_introl eq_refl)). lia.
Qed.

Lemma Forall2_nth_error_r {A B : Type} (R : A -> B -> Prop) (l : list A) (l' : list B)
  (i : nat) (b : B) :
  Forall2 R l l' -> nth_error l' i = Some b -> exists a, nth_error l i = Some a /\ R a b.
Proof.
  intros HF. revert i. induction HF as [|x y l l' Hxy HF IH]; intros [|i] Hi; try discriminate.
  - injection Hi as <-. exists x. auto.
  - apply IH. assumption.
Qed.

Lemma kept_by_pairwise (thresh : float) (l : list (Pred * list float)) (a b : nat)
  (ra rb : Pred * list float) :
  nth_error l a = Some ra -> nth_error l b = Some rb ->
  kept_by thresh (pairwise_iou l) a b
  = (compute_iou (box_of (fst ra)) (box_of (fst rb)) <? thresh)%float.
Proof. intros Ha Hb. unfold kept_by. now rewrite (at2_pairwise l a b ra rb). Qed.

(** X1: the boxes the filter returns are significant boxes of its input; none
    of them overlaps a box returned before it at or above the threshold,
    and each of them suppressed itself. *)
Theorem filtered_boxes_do_not_overlap (self : DPPModel) (fuel : nat)
  (preds out : list (Pred * list float)) :
  detection_filter self fuel preds = Returned (Some out) ->
  out <> [] /\
  (forall r, In r out -> In r preds /\ (THRESH_SIG self <? p4 (fst r))%float = true) /\
  (forall i j ri rj, i < j -> nth_error out i = Some ri -> nth_error out j = Some rj ->
     (compute_iou (box_of (fst ri)) (box_of (fst rj)) <? THRESH_OVERLAP self)%float = true) /\
  (forall r, In r out ->
     (compute_iou (box_of (fst r)) (box_of (fst r)) <? THRESH_OVERLAP self)%float = false).
Proof.
  intros H.
  destruct (detection_filter_descending _ _ _ _ H) as (_ & Hsig & Hne).
  apply detection_filter_inv in H. destruct H as (picks & Hloop & Hout & _).
  set (preds1 := filter (fun r => (THRESH_SIG self <? p4 (fst r))%float) preds) in *.
  destruct (nms_while_picks _ _ _ _ _ _ Hloop) as (picks' & Hp & _ & Hkept & Hself & _).
  simpl in Hp. subst picks'.
  split; [assumption|]. split; [|split].
  - intros r Hr. destruct (Forall2_In_r _ _ _ _ Hout Hr) as (i & _ & Hi).
    apply nth_error_In in Hi. apply filter_In in Hi. exact Hi.
  - intros i j ri rj Hij Hi Hj.
    destruct (Forall2_nth_error_r _ _ _ _ _ Hout Hi) as (pi & Hpi & Hri).
    destruct (Forall2_nth_error_r _ _ _ _ _ Hout Hj) as (pj & Hpj & Hrj).
    rewrite <- (kept_by_pairwise _ preds1 pi pj ri rj Hri Hrj).
    apply (StronglySorted_nth _ _ Hkept i j pi pj Hij Hpi Hpj).
  - intros r Hr. destruct (Forall2_In_r _ _ _ _ Hout Hr) as (i & Hin & Hi).
    rewrite <- (kept_by_pairwise _ preds1 i i r r Hi Hi).
    rewrite Forall_forall in Hself. now apply Hself.
Qed.

Lemma filtered_boxes_do_not_overlap_witness :
  let self := mkModel 1 1 5 [] 0.6 0.3 0.5 100 100 0 0 in
  let preds := [(mkPred 0 0 10 10 0.9, [1]); (mkPred 0 0 10 9 0.8, [1]);
                (mkPred 20 20 30 30 0.7, [1]); (mkPred 1 1 2 2 0.5, [1])]%float in
  let out := [(mkPred 0 0 10 10 0.9, [1]); (mkPred 20 20 30 30 0.7, [1])]%float in
  out <> [] /\
  (forall r, In r out -> In r preds /\ (THRESH_SIG self <? p4 (fst r))%float = true) /\
  (forall i j ri rj, i < j -> nth_error out i = Some ri -> nth_error out j = Some rj ->
     (compute_iou (box_of (fst ri)) (box_of (fst rj)) <? THRESH_OVERLAP self)%float = true) /\
  (forall r, In r out ->
     (compute_iou (box_of (fst r)) (box_of (fst r)) <? THRESH_OVERLAP self)%float = false).
Proof.
  intros self preds out.
  apply (filtered_boxes_do_not_overlap self 4 preds out). vm_compute. reflexivity.
Defined.

(** X2: the box with the largest confidence among the significant ones is
    always returned, as the first row. *)
Theorem most_confident_box_survives (self : DPPModel) (fuel : nat)
  (preds out : list (Pred * list float)) :
  detection_filter self fuel preds = Returned (Some out) ->
  exists r0 rest,
    out = r0 :: rest /\
    forall r, In r preds -> (THRESH_SIG self <? p4 (fst r))%float = true ->
      (p4 (fst r) <=? p4 (fst r0))%float = true.
Proof.
  intros H. apply detection_filter_inv in H. destruct H as (picks & Hloop & Hout & Hne).
  set (preds1 := filter (fun r => (THRESH_SIG self <? p4 (fst r))%float) preds) in *.
  set (keys := map (fun r : Pred * list float => p4 (fst r)) preds1) in *.
  assert (Hnan : Forall (fun k => is_nan k = false) keys).
  { unfold keys. rewrite Forall_forall. intros k Hk. apply in_map_iff in Hk.
    destruct Hk as (r & <- & Hr). apply filter_In in Hr. destruct Hr as [_ Hr].
    now apply ltb_not_nan in Hr. }
  destruct (np_argsort_ascending keys Hnan) as [Hasc Hin].
  assert (Hkey : forall i r, nth_error preds1 i = Some r -> nth i keys nan = p4 (fst r)).
  { intros i r Hi. unfold keys.
    rewrite (nth_map_in _ preds1 i r nan) by (apply nth_error_Some; congruence).
    now rewrite (nth_error_nth _ _ _ Hi). }
  destruct (last_cases (np_argsort keys)) as [Hnil|(l & cur & Hord)].
  { exfalso. destruct preds1 as [|r0 preds1'] eqn:E; [now apply Hne|].
    assert (In 0 (np_argsort keys)) by (apply Hin; unfold keys; simpl; lia).
    rewrite Hnil in H. destruct H. }
  rewrite Hord in Hloop, Hasc.
  destruct (nms_while_first _ _ _ _ _ _ _ Hloop) as (rest & ->). simpl in Hout.
  inversion Hout as [|? r0 ? out' Hr0 Hout' E1 E2]; subst.
  exists r0, out'. split; [reflexivity|].
  intros r Hr Hs.
  assert (Hr1 : In r preds1) by (apply filter_In; auto).
  apply In_nth_error in Hr1. destruct Hr1 as [i Hi].
  rewrite <- (Hkey _ _ Hi), <- (Hkey _ _ Hr0).
  assert (Hio : In i (l ++ [cur])).
  { rewrite <- Hord. apply Hin. unfold keys. rewrite length_map.
    apply nth_error_Some. congruence. }
  apply StronglySorted_app_inv in Hasc. destruct Hasc as [_ Hall].
  apply in_app_or in Hio. destruct Hio as [Hio|[<-|[]]].
  - rewrite Forall_forall in Hall. now apply Hall.
  - apply leb_refl. rewrite (Hkey _ _ Hi). now apply ltb_not_nan in Hs.
Qed.

Lemma most_confident_box_survives_witness :
  let self := mkModel 1 1 5 [] 0.6 0.3 0.5 100 100 0 0 in
  let preds := [(mkPred 0 0 10 9 0.8, [1]); (mkPred 0 0 10 10 0.9, [1]);
                (mkPred 20 20 30 30 0.7, [1])]%float in
  let out := [(mkPred 0 0 10 10 0.9, [1]); (mkPred 20 20 30 30 0.7, [1])]%float in
  exists r0 rest,
    out = r0 :: rest /\
    forall r, In r preds -> (THRESH_SIG self <? p4 (fst r))%float = true ->
      (p4 (fst r) <=? p4 (fst r0))%float = true.
Proof.
  intros self preds out.
  apply (most_confident_box_survives self 3 preds out). vm_compute. reflexivity.
Defined.

(** X3: when every significant box suppresses itself, the loop ends: as many
    units of fuel as there are rows are enough for the filter to return. *)
Theorem filter_returns_when_boxes_suppress_themselves (self : DPPModel) (fuel : nat)
  (preds : list (Pred * list float)) :
  (forall r, In r preds -> (THRESH_SIG self <? p4 (fst r))%float = true ->
     (compute_iou (box_of (fst r)) (box_of (fst r)) <? THRESH_OVERLAP self)%float = false) ->
  length preds <= fuel ->
  exists result, detection_filter self fuel preds = Returned result.
Proof.
  intros Hself Hfuel.
  unfold detection_filter, sig_mask. rewrite np_any_map, boolean_index_map.
  destruct (existsb _ preds) eqn:E; simpl; [|eauto].
  set (preds1 := filter (fun r => (THRESH_SIG self <? p4 (fst r))%float) preds).
  set (keys := map (fun r : Pred * list float => p4 (fst r)) preds1).
  assert (Hnan : Forall (fun k => is_nan k = false) keys).
  { unfold keys. rewrite Forall_forall. intros k Hk. apply in_map_iff in Hk.
    destruct Hk as (r & <- & Hr). apply filter_In in Hr. destruct Hr as [_ Hr].
    now apply ltb_not_nan in Hr. }
  destruct (np_argsort_ascending keys Hnan) as [Hasc Hin].
  assert (Hlenk : length keys = length preds1) by (unfold keys; apply length_map).
  assert (Hne : np_argsort keys <> []).
  { apply existsb_exists in E. destruct E as (r & Hr & Hs).
    assert (Hr1 : In r preds1) by (apply filter_In; auto).
    apply In_nth_error in Hr1. destruct Hr1 as [i Hi].
    assert (In i (np_argsort keys))
      by (apply Hin; rewrite Hlenk; apply nth_error_Some; congruence).
    intros Hnil. rewrite Hnil in H. destruct H. }
  assert (Hlen : length (np_argsort keys) <= fuel).
  { unfold np_argsort. rewrite length_rev.
    assert (Hf : forall l acc, length (fold_left
              (fun sorted vi => insert_left (fun i => nth i keys nan) vi sorted) l acc)
              = length l + length acc).
    { induction l as [|x l IHl]; intros acc; simpl; [reflexivity|].
      rewrite IHl. clear. induction acc as [|a acc IHa]; simpl; [lia|].
      destruct (np_lt _ _); simpl; lia. }
    rewrite Hf, length_seq, Hlenk. simpl.
    pose proof (filter_length_le (fun r => (THRESH_SIG self <? p4 (fst r))%float) preds).
    fold preds1 in H. lia. }
  destruct (nms_while_terminates (THRESH_OVERLAP self) (pairwise_iou preds1) fuel
              (np_argsort keys) [] Hne Hlen) as [picks Hpicks].
  { intros x Hx. apply Hin in Hx. rewrite Hlenk in Hx.
    destruct (nth_error preds1 x) as [r|] eqn:Ex; [|apply nth_error_None in Ex; lia].
    rewrite (kept_by_pairwise _ preds1 x x r r Ex Ex).
    apply nth_error_In in Ex. apply filter_In in Ex. now apply Hself. }
  rewrite Hpicks. simpl.
  destruct (mapM_index_in_range preds1 picks) as [out Hout].
  { intros i Hi. destruct (nms_while_picks _ _ _ _ _ _ Hpicks) as (picks' & Hp & Hincl & _).
    simpl in Hp. subst picks'. apply Hincl, Hin in Hi. now rewrite <- Hlenk. }
  rewrite Hout. simpl. eauto.
Qed.

Lemma filter_returns_when_boxes_suppress_themselves_witness :
  exists result,
    detection_filter (mkModel 1 1 5 [] 0.6 0.3 0.5 100 100 0 0) 2
      [(mkPred 0 0 10 10 0.9, [1]); (mkPred 20 20 30 30 0.7, [1])]%float = Returned result.
Proof.
  apply filter_returns_when_boxes_suppress_themselves.
  - intros r [<-|[<-|[]]] _; vm_compute; reflexivity.
  - simpl. lia.
Defined.

(** X4: when every significant box has an IoU with itself below the overlap
    threshold (a threshold above 1, for one), the selected box is never
    removed from the list and the loop does not end. *)
Theorem filter_loops_when_boxes_keep_themselves (self : DPPModel) (fuel : nat)
  (preds : list (Pred * list float)) :
  (exists r, In r preds /\ (THRESH_SIG self <? p4 (fst r))%float = true) ->
  (forall r, In r preds -> (THRESH_SIG self <? p4 (fst r))%float = true ->
     (compute_iou (box_of (fst r)) (box_of (fst r)) <? THRESH_OVERLAP self)%float = true) ->
  detection_filter self fuel preds = Unfinished.
Proof.
  intros (r & Hr & Hs) Hself.
  unfold detection_filter, sig_mask. rewrite np_any_map, boolean_index_map.
  assert (E : existsb (fun r => (THRESH_SIG self <? p4 (fst r))%float) preds = true)
    by (apply existsb_exists; eauto).
  rewrite E. simpl.
  set (preds1 := filter (fun r => (THRESH_SIG self <? p4 (fst r))%float) preds).
  set (keys := map (fun r : Pred * list float => p4 (fst r)) preds1).
  assert (Hnan : Forall (fun k => is_nan k = false) keys).
  { unfold keys. rewrite Forall_forall. intros k Hk. apply in_map_iff in Hk.
    destruct Hk as (r' & <- & Hr'). apply filter_In in Hr'. destruct Hr' as [_ Hr'].
    now apply ltb_not_nan in Hr'. }
  destruct (np_argsort_ascending keys Hnan) as [_ Hin].
  assert (Hlenk : length keys = length preds1) by (unfold keys; apply length_map).
  destruct (last_cases (np_argsort keys)) as [Hnil|(l & cur & Hord)].
  { exfalso. assert (Hr1 : In r preds1) by (apply filter_In; auto).
    apply In_nth_error in Hr1. destruct Hr1 as [i Hi].
    assert (In i (np_argsort keys))
      by (apply Hin; rewrite Hlenk; apply nth_error_Some; congruence).
    rewrite Hnil in H. destruct H. }
  rewrite Hord, nms_while_self_kept; [reflexivity|].
  assert (Hc : In cur (np_argsort keys)) by (rewrite Hord; apply in_or_app; right; now left).
  apply Hin in Hc. rewrite Hlenk in Hc.
  destruct (nth_error preds1 cur) as [rc|] eqn:Ec; [|apply nth_error_None in Ec; lia].
  rewrite (kept_by_pairwise _ preds1 cur cur rc rc Ec Ec).
  apply nth_error_In in Ec. apply filter_In in Ec. now apply Hself.
Qed.

Lemma filter_loops_when_boxes_keep_themselves_witness :
  detection_filter
    (set_yolo_thresholds (mkModel 1 1 5 [] 0.6 0.3 0.5 100 100 0 0) 0.6 1.5 0.5) 1000
    [(mkPred 0 0 10 10 0.9, [1]); (mkPred 20 20 30 30 0.7, [1])]%float = Unfinished.
Proof.
  apply filter_loops_when_boxes_keep_themselves.
  - exists (mkPred 0 0 10 10 0.9, [1])%float. split; [now left | vm_compute; reflexivity].
  - intros r [<-|[<-|[]]] _; vm_compute; reflexivity.
Defined.

Lemma nms_while_covers (thresh : float) (pair_iou : list (list float)) (fuel : nat) :
  forall order acc out,
  nms_while fuel thresh pair_iou order acc = Returned out ->
  forall x, In x order -> exists p, In p out /\ kept_by thresh pair_iou p x = false.
Proof.
  induction fuel as [|fuel IH]; intros order acc out H x Hx; [discriminate|].
  destruct (last_cases order) as [->|(l & cur & ->)]; [destruct Hx|].
  rewrite nms_while_step in H.
  destruct (existsb (kept_by thresh pair_iou cur) (l ++ [cur])) eqn:E.
  - destruct (kept_by thresh pair_iou cur x) eqn:Ek.
    + eapply IH; [exact H|]. apply filter_In. auto.
    + exists cur. split; [|assumption].
      destruct (nms_while_picks _ _ _ _ _ _ H) as (picks & -> & _).
      apply in_or_app. left. apply in_or_app. right. now left.
  - injection H as <-. exists cur. split; [apply in_or_app; right; now left|].
    destruct (kept_by thresh pair_iou cur x) eqn:Ek; [|reflexivity].
    assert (existsb (kept_by thresh pair_iou cur) (l ++ [cur]) = true)
      by (apply existsb_exists; eauto).
    congruence.
Qed.

(** X5: every significant box of the input is accounted for: some returned
    box has an IoU with it that is not below the overlap threshold. *)
Theorem filtered_boxes_cover_the_significant (self : DPPModel) (fuel : nat)
  (preds out : list (Pred * list float)) :
  detection_filter self fuel preds = Returned (Some out) ->
  forall r, In r preds -> (THRESH_SIG self <? p4 (fst r))%float = true ->
    exists r', In r' out /\
      (compute_iou (box_of (fst r')) (box_of (fst r)) <? THRESH_OVERLAP self)%float = false.
Proof.
  intros H r Hr Hs.
  apply detection_filter_inv in H. destruct H as (picks & Hloop & Hout & _).
  set (preds1 := filter (fun r => (THRESH_SIG self <? p4 (fst r))%float) preds) in *.
  set (keys := map (fun r : Pred * list float => p4 (fst r)) preds1) in *.
  assert (Hnan : Forall (fun k => is_nan k = false) keys).
  { unfold keys. rewrite Forall_forall. intros k Hk. apply in_map_iff in Hk.
    destruct Hk as (r1 & <- & Hr1). apply filter_In in Hr1. destruct Hr1 as [_ Hr1].
    now apply ltb_not_nan in Hr1. }
  destruct (np_argsort_ascending keys Hnan) as [_ Hin].
  assert (Hr1 : In r preds1) by (apply filter_In; auto).
  apply In_nth_error in Hr1. destruct Hr1 as [x Hx].
  assert (Hxo : In x (np_argsort keys)).
  { apply Hin. unfold keys. rewrite length_map. apply nth_error_Some. congruence. }
  destruct (nms_while_covers _ _ _ _ _ _ Hloop x Hxo) as (p & Hp & Hk).
  apply In_nth_error in Hp. destruct Hp as [k Hkk].
  destruct (Forall2_nth_error_l _ _ _ _ _ Hout Hkk) as (r' & Hr' & Hpr).
  exists r'. split; [eapply nth_error_In; eassumption|].
  now rewrite <- (kept_by_pairwise _ preds1 p x r' r Hpr Hx).
Qed.

Lemma filtered_boxes_cover_the_significant_witness :
  let self := mkModel 1 1 5 [] 0.6 0.3 0.5 100 100 0 0 in
  let out := [(mkPred 0 0 10 10 0.9, [1]); (mkPred 20 20 30 30 0.7, [1])]%float in
  let r := (mkPred 0 0 10 9 0.8, [1])%float in
  exists r', In r' out /\
    (compute_iou (box_of (fst r')) (box_of (fst r)) <? THRESH_OVERLAP self)%float = false.
Proof.
  intros self out r.
  apply (filtered_boxes_cover_the_significant self 3
           [(mkPred 0 0 10 9 0.8, [1]); (mkPred 0 0 10 10 0.9, [1]);
            (mkPred 20 20 30 30 0.7, [1])]%float out).
  - vm_compute. reflexivity.
  - left. reflexivity.
  - vm_compute. reflexivity.
Defined.

(** ** The suppression loop of the forward pass *)

Section Suppress.

Variable all_boxes : list Pred.

Local Abbreviation survives := (survives all_boxes).

Lemma suppress_loop_step (fuel : nat) (l : list nat) (i : nat) (acc : list nat) :
  suppress_loop (S fuel) all_boxes (l ++ [i]) acc
  = suppress_loop fuel all_boxes (filter (survives i) l) (acc ++ [i]).
Proof.
  simpl. rewrite last_index_app, removelast_last. reflexivity.
Qed.

Lemma suppress_loop_picks (fuel : nat) :
  forall idxs acc,
  length idxs <= fuel ->
  exists picks,
    suppress_loop fuel all_boxes idxs acc = acc ++ picks /\
    incl picks idxs /\
    StronglySorted (fun a b => survives a b = true) picks /\
    (forall R : nat -> nat -> Prop, StronglySorted R (rev idxs) -> StronglySorted R picks) /\
    (idxs = [] \/ picks <> []).
Proof.
  induction fuel as [|fuel IH]; intros idxs acc Hlen.
  - destruct idxs; [|simpl in Hlen; lia].
    exists []. simpl. rewrite app_nil_r. repeat split; try constructor; auto.
    intros x [].
  - destruct (last_cases idxs) as [->|(l & i & ->)].
    + exists []. simpl. rewrite app_nil_r. repeat split; try constructor; auto.
      intros x [].
    + rewrite suppress_loop_step.
      destruct (IH (filter (survives i) l) (acc ++ [i])) as (picks & Hp & Hincl & Hs & HR & _).
      { pose proof (filter_length_le (survives i) l).
        rewrite length_app in Hlen. simpl in Hlen. lia. }
      exists (i :: picks). rewrite Hp, <- app_assoc. simpl.
      split; [reflexivity|]. split; [|split; [|split]].
      * intros x [<-|Hx]; [apply in_or_app; right; now left|].
        apply Hincl, filter_In in Hx. apply in_or_app. tauto.
      * constructor; [assumption|]. rewrite Forall_forall. intros x Hx.
        apply Hincl, filter_In in Hx. tauto.
      * intros R HS. rewrite rev_unit in HS. inversion HS as [|? ? HS' HF]; subst.
        constructor.
        -- apply HR. rewrite <- filter_rev. now apply StronglySorted_filter.
        -- rewrite Forall_forall in *. intros x Hx. apply HF.
           apply Hincl, filter_In in Hx. rewrite <- in_rev. tauto.
      * right. discriminate.
Qed.

Lemma suppress_loop_covers (fuel : nat) :
  forall idxs acc,
  length idxs <= fuel ->
  forall x, In x idxs ->
  exists p, In p (suppress_loop fuel all_boxes idxs acc) /\ (p = x \/ survives p x = false).
Proof.
  induction fuel as [|fuel IH]; intros idxs acc Hlen x Hx.
  - destruct idxs; [destruct Hx | simpl in Hlen; lia].
  - destruct (last_cases idxs) as [->|(l & i & ->)]; [destruct Hx|].
    rewrite suppress_loop_step.
    assert (Hl : length (filter (survives i) l) <= fuel).
    { pose proof (filter_length_le (survives i) l).
      rewrite length_app in Hlen. simpl in Hlen. lia. }
    assert (Hi : In i (suppress_loop fuel all_boxes (filter (survives i) l) (acc ++ [i]))).
    { destruct (suppress_loop_picks fuel _ (acc ++ [i]) Hl) as (picks & -> & _).
      apply in_or_app. left. apply in_or_app. right. now left. }
    apply in_app_or in Hx. destruct Hx as [Hx|[<-|[]]].
    + destruct (survives i x) eqn:E.
      * apply IH; [assumption|]. apply filter_In. auto.
      * exists i. auto.
    + exists i. auto.
Qed.

End Suppress.

Lemma np_argsort_In (keys : list float) (x : nat) :
  In x (np_argsort keys) <-> x < length keys.
Proof.
  unfold np_argsort. rewrite <- in_rev.
  assert (H : forall l acc,
            In x (fold_left (fun sorted vi => insert_left (fun i => nth i keys nan) vi sorted)
                            l acc) <-> In x l \/ In x acc).
  { induction l as [|v l IH]; intros acc; simpl; [tauto|].
    rewrite IH, insert_left_In. intuition. }
  rewrite H, in_seq. simpl. intuition lia.
Qed.

(** What a run of the suppression of the forward pass went through. *)
Lemma non_maximal_suppression_inv (all_boxes : list Pred) :
  all_boxes <> [] ->
  exists picks out,
    non_maximal_suppression all_boxes = Returned out /\
    Forall2 (fun i r => nth_error all_boxes i = Some r) picks out /\
    picks <> [] /\
    StronglySorted (fun a b => survives all_boxes a b = true) picks /\
    (forall R : nat -> nat -> Prop,
       StronglySorted R (rev (np_argsort (map p4 all_boxes))) -> StronglySorted R picks).
Proof.
  intros Hne. unfold non_maximal_suppression.
  destruct all_boxes as [|b0 bs] eqn:Eb; [congruence|]. rewrite <- Eb in *.
  destruct (suppress_loop_picks all_boxes _ (np_argsort (map p4 all_boxes)) [] (le_n _))
    as (picks & Hp & Hincl & Hs & HR & Hor).
  simpl in Hp. rewrite Hp.
  destruct (mapM_index_in_range all_boxes picks) as [out Hout].
  { intros i Hi. apply Hincl, np_argsort_In in Hi. now rewrite length_map in Hi. }
  exists picks, out. split; [assumption|]. split; [|split; [|split]]; auto.
  - apply mapM_Forall2 in Hout. eapply Forall2_impl; [|exact Hout].
    intros i r Hi. now apply index_Returned.
  - destruct Hor as [Hnil|]; [|assumption].
    exfalso. assert (H0 : In 0 (np_argsort (map p4 all_boxes))).
    { apply np_argsort_In. rewrite length_map, Eb. simpl. lia. }
    rewrite Hnil in H0. destruct H0.
Qed.

(** X6: on a pool that is not empty the suppression returns: a non-empty
    selection of the pool in which no box overlaps an earlier one by more
    than 0.3. *)
Theorem forward_suppression_returns (all_boxes : list Pred) :
  all_boxes <> [] ->
  exists out,
    non_maximal_suppression all_boxes = Returned out /\
    out <> [] /\
    incl out all_boxes /\
    forall i j ri rj, i < j -> nth_error out i = Some ri -> nth_error out j = Some rj ->
      (0.3 <? compute_iou (box_of ri) (box_of rj))%float = false.
Proof.
  intros Hne.
  destruct (non_maximal_suppression_inv all_boxes Hne) as (picks & out & Hout & HF & Hp & Hs & _).
  exists out. split; [assumption|]. split; [|split].
  - intros ->. inversion HF. subst. now apply Hp.
  - intros r Hr. destruct (Forall2_In_r _ _ _ _ HF Hr) as (i & _ & Hi).
    eapply nth_error_In; eassumption.
  - intros i j ri rj Hij Hi Hj.
    destruct (Forall2_nth_error_r _ _ _ _ _ HF Hi) as (pi & Hpi & Hri).
    destruct (Forall2_nth_error_r _ _ _ _ _ HF Hj) as (pj & Hpj & Hrj).
    pose proof (StronglySorted_nth _ _ Hs i j pi pj Hij Hpi Hpj) as Hsv.
    unfold survives, box_at in Hsv.
    rewrite (nth_error_nth _ _ _ Hri), (nth_error_nth _ _ _ Hrj) in Hsv.
    now apply negb_true_iff in Hsv.
Qed.

Lemma forward_suppression_returns_witness :
  exists out,
    non_maximal_suppression
      [mkPred 0 0 10 9 0.8; mkPred 0 0 10 10 0.9; mkPred 20 20 30 30 0.7]%float
    = Returned out /\
    out <> [] /\
    incl out [mkPred 0 0 10 9 0.8; mkPred 0 0 10 10 0.9; mkPred 20 20 30 30 0.7]%float /\
    forall i j ri rj, i < j -> nth_error out i = Some ri -> nth_error out j = Some rj ->
      (0.3 <? compute_iou (box_of ri) (box_of rj))%float = false.
Proof.
  apply forward_suppression_returns. discriminate.
Defined.

Lemma non_maximal_suppression_sorted (all_boxes out : list Pred) :
  Forall (fun b => is_nan (p4 b) = false) all_boxes ->
  non_maximal_suppression all_boxes = Returned out ->
  StronglySorted (fun a b => (p4 b <=? p4 a)%float = true) out.
Proof.
  intros Hnan H.
  destruct all_boxes as [|b0 bs] eqn:Eb; [discriminate|]. rewrite <- Eb in *.
  assert (Hne : all_boxes <> []) by (rewrite Eb; discriminate).
  destruct (non_maximal_suppression_inv all_boxes Hne) as (picks & out' & Hout & HF & _ & _ & HR).
  assert (out' = out) by congruence. subst out'.
  set (keys := map p4 all_boxes) in *.
  assert (Hk : Forall (fun k => is_nan k = false) keys).
  { unfold keys. rewrite Forall_forall in *. intros k Hk. apply in_map_iff in Hk.
    destruct Hk as (b & <- & Hb). now apply Hnan. }
  destruct (np_argsort_ascending keys Hk) as [Hasc _].
  apply StronglySorted_rev in Hasc. apply HR in Hasc.
  assert (Hkey : forall i r, nth_error all_boxes i = Some r -> nth i keys nan = p4 r).
  { intros i r Hi. unfold keys.
    rewrite (nth_map_in _ all_boxes i r nan) by (apply nth_error_Some; congruence).
    now rewrite (nth_error_nth _ _ _ Hi). }
  clear Hout HR H. induction HF as [|i r picks out Hi HF IH]; [constructor|].
  inversion Hasc as [|? ? Hd HFa]; subst. constructor.
  - apply IH; assumption.
  - rewrite Forall_forall in *. intros r' Hr'.
    destruct (Forall2_In_r _ _ _ _ HF Hr') as (i' & Hi' & Hr'').
    rewrite <- (Hkey _ _ Hi), <- (Hkey _ _ Hr''). now apply HFa.
Qed.

(** X7: when no confidence is NaN the boxes come back in the order of
    non-increasing confidence. *)
Theorem forward_suppression_descends (all_boxes out : list Pred) :
  Forall (fun b => is_nan (p4 b) = false) all_boxes ->
  non_maximal_suppression all_boxes = Returned out ->
  StronglySorted (fun a b => (p4 b <=? p4 a)%float = true) out.
Proof.
  apply non_maximal_suppression_sorted.
Qed.

Lemma forward_suppression_descends_witness :
  StronglySorted (fun a b => (p4 b <=? p4 a)%float = true)
    [mkPred 0 0 10 10 0.9; mkPred 20 20 30 30 0.7]%float.
Proof.
  apply (forward_suppression_descends
           [mkPred 0 0 10 9 0.8; mkPred 0 0 10 10 0.9; mkPred 20 20 30 30 0.7]%float).
  - repeat constructor.
  - vm_compute. reflexivity.
Defined.

(** X8: every box of the pool is returned or overlaps a returned box by more
    than 0.3. *)
Theorem forward_suppression_is_maximal (all_boxes out : list Pred) :
  non_maximal_suppression all_boxes = Returned out ->
  forall b, In b all_boxes ->
    In b out \/
    exists r, In r out /\ (0.3 <? compute_iou (box_of r) (box_of b))%float = true.
Proof.
  intros H b Hb.
  destruct all_boxes as [|b0 bs] eqn:Eb; [destruct Hb|]. rewrite <- Eb in *.
  unfold non_maximal_suppression in H. rewrite Eb in H. rewrite <- Eb in H.
  apply mapM_Forall2 in H.
  apply In_nth_error in Hb. destruct Hb as [x Hx].
  assert (Hin : In x (np_argsort (map p4 all_boxes))).
  { apply np_argsort_In. rewrite length_map. apply nth_error_Some. congruence. }
  destruct (suppress_loop_covers all_boxes _ _ [] (le_n _) x Hin) as (p & Hp & Hor).
  apply In_nth_error in Hp. destruct Hp as [k Hk].
  destruct (Forall2_nth_error_l _ _ _ _ _ H Hk) as (r & Hr & Hpr).
  apply index_Returned in Hpr. apply nth_error_In in Hr.
  destruct Hor as [->|Hs].
  - left. congruence.
  - right. exists r. split; [assumption|].
    unfold survives, box_at in Hs.
    rewrite (nth_error_nth _ _ _ Hpr), (nth_error_nth _ _ _ Hx) in Hs.
    now apply negb_false_iff in Hs.
Qed.

Lemma forward_suppression_is_maximal_witness :
  let out := [mkPred 0 0 10 10 0.9; mkPred 20 20 30 30 0.7]%float in
  let b := (mkPred 0 0 10 9 0.8)%float in
  In b out \/
  exists r, In r out /\ (0.3 <? compute_iou (box_of r) (box_of b))%float = true.
Proof.
  intros out b.
  apply (forward_suppression_is_maximal
           [mkPred 0 0 10 9 0.8; mkPred 0 0 10 10 0.9; mkPred 20 20 30 30 0.7]%float out).
  - vm_compute. reflexivity.
  - left. reflexivity.
Defined.

(** ** The decoding loop of the forward pass *)

Lemma patch_cell_confident (expit np_exp : float -> float) (self : DPPModel)
  (num_patches_horiz : Z) (img_data : list (list float)) (i j : nat) (bs : list PredBox) :
  patch_cell expit np_exp self num_patches_horiz img_data i j = Returned bs ->
  forall b, In b bs -> (0.6 <? pb_conf b)%float = true.
Proof.
  intros H b Hb. apply patch_cell_stitched in H.
  destruct H as (patch & k & conf & _ & _ & Hlow & Hhigh).
  destruct (0.6 <? conf)%float eqn:E.
  - destruct (Hhigh eq_refl) as (lx & ly & prior & x1 & y1 & x2 & y2 & _ & _ & _ & H).
    simpl in H. destruct H as (_ & _ & _ & _ & ->).
    destruct Hb as [<-|[]]. exact E.
  - rewrite (Hlow eq_refl) in Hb. destruct Hb.
Qed.

Lemma image_boxes_confident (expit np_exp : float -> float) (self : DPPModel)
  (num_patches_horiz num_patches_vert : Z) (img_data : list (list float))
  (pooled : list PredBox) :
  image_boxes expit np_exp self num_patches_horiz num_patches_vert img_data = Returned pooled ->
  forall b, In b pooled -> (0.6 <? pb_conf b)%float = true.
Proof.
  unfold image_boxes. intros H b Hb. bind_inv H. injection H as <-.
  apply mapM_Forall2 in Ha. apply in_concat in Hb. destruct Hb as (bs & Hbs & Hb).
  destruct (Forall2_In_r _ _ _ _ Ha Hbs) as ([i j] & _ & Hij).
  eapply patch_cell_confident; eassumption.
Qed.

(** X9: when no cell of the first image has a confidence above 0.6 the call
    raises: the suppression indexes an empty array. *)
Theorem no_detection_raises (expit np_exp : float -> float) (self : DPPModel)
  (img_data : list (list float)) (rest : list (list (list float))) :
  image_boxes expit np_exp self (image_width self / patch_width self)
    (image_height self / patch_height self) img_data = Returned [] ->
  interpreted_outputs_with_patching expit np_exp self (img_data :: rest) = Raised.
Proof.
  intros H. unfold interpreted_outputs_with_patching.
  destruct (_ || _); [reflexivity|]. simpl. rewrite H. reflexivity.
Qed.

Lemma no_detection_raises_witness :
  let cell26 := fun tx ty tw th c : float =>
    [tx; ty; tw; th; c; 0; 0; 0; 0; 0; 0; 0; 0; 0; 0; 0; 0; 0; 0; 0; 0; 0; 0; 0; 0; 1]%float in
  interpreted_outputs_with_patching (fun t => t) (fun t => t)
    (mkModel 1 1 5 [(1, 1); (1, 1); (1, 1); (1, 1); (1, 1)]%float 0.6 0.3 0.5 100 50 50 50)
    [[cell26 0.1 0.1 0.1 0.1 0.2; cell26 0.8 0.8 0.1 0.1 0.3];
     [cell26 0.1 0.1 0.1 0.1 0.2; cell26 0.8 0.8 0.1 0.1 0.9]]%float
  = Raised.
Proof.
  intros cell26. apply no_detection_raises. vm_compute. reflexivity.
Defined.

(** X10: the boxes of a batch of images are pooled over all the images of the
    batch: what is returned is the suppression of the pool, it is not
    empty, and every box of it comes from the pool with a confidence above
    0.6. *)
Theorem interpreted_outputs_pool_the_batch (expit np_exp : float -> float) (self : DPPModel)
  (total_outputs : list (list (list float))) (out : list Pred) :
  interpreted_outputs_with_patching expit np_exp self total_outputs = Returned out ->
  exists pools,
    mapM (image_boxes expit np_exp self (image_width self / patch_width self)
            (image_height self / patch_height self)) total_outputs = Returned pools /\
    non_maximal_suppression (map as_floats (concat pools)) = Returned out /\
    out <> [] /\
    StronglySorted (fun a b => (p4 b <=? p4 a)%float = true) out /\
    forall b, In b out ->
      In b (map as_floats (concat pools)) /\ (0.6 <? p4 b)%float = true.
Proof.
  intros H. unfold interpreted_outputs_with_patching in H.
  destruct (_ || _); [discriminate|].
  destruct total_outputs as [|img rest] eqn:E; [discriminate|]. rewrite <- E in *.
  apply interpret_images_pool in H; [|rewrite E; discriminate].
  destruct H as (pools & Hpools & Hnms). simpl in Hnms.
  exists pools. split; [assumption|]. split; [assumption|].
  set (pool := map as_floats (concat pools)) in *.
  assert (Hne : pool <> []) by (intros Hnil; rewrite Hnil in Hnms; discriminate).
  destruct (non_maximal_suppression_inv pool Hne) as (picks & out' & Hout & HF & Hp & _).
  assert (out' = out) by congruence. subst out'.
  assert (Hconf : forall b, In b pool -> (0.6 <? p4 b)%float = true).
  { intros b Hb. unfold pool in Hb. apply in_map_iff in Hb. destruct Hb as (pb & <- & Hpb).
    apply in_concat in Hpb. destruct Hpb as (boxes & Hboxes & Hpb).
    apply mapM_Forall2 in Hpools.
    destruct (Forall2_In_r _ _ _ _ Hpools Hboxes) as (img' & _ & Himg).
    simpl. eapply image_boxes_confident; eassumption. }
  split; [|split].
  - intros ->. inversion HF. subst. now apply Hp.
  - apply (non_maximal_suppression_sorted pool); [|assumption].
    rewrite Forall_forall. intros b Hb. apply Hconf in Hb. now apply ltb_not_nan in Hb.
  - intros b Hb. destruct (Forall2_In_r _ _ _ _ HF Hb) as (i & _ & Hi).
    apply nth_error_In in Hi. split; [assumption|]. now apply Hconf.
Qed.

Lemma interpreted_outputs_pool_the_batch_witness :
  let cell26 := fun tx ty tw th c : float =>
    [tx; ty; tw; th; c; 0; 0; 0; 0; 0; 0; 0; 0; 0; 0; 0; 0; 0; 0; 0; 0; 0; 0; 0; 0; 1]%float in
  let self :=
    mkModel 1 1 5 [(1, 1); (1, 1); (1, 1); (1, 1); (1, 1)]%float 0.6 0.3 0.5 100 50 50 50 in
  let total_outputs :=
    [[cell26 0.1 0.1 0.1 0.1 0.2; cell26 0.8 0.8 0.1 0.1 0.9];
     [cell26 0.5 0.5 0.1 0.1 0.7; cell26 0.8 0.8 0.1 0.1 0.3]]%float in
  let out := [mkPred 85 37 95 42 0.9; mkPred 20 22 30 27 0.7]%float in
  exists pools,
    mapM (image_boxes (fun t => t) (fun t => t) self
            (image_width self / patch_width self) (image_height self / patch_height self))
         total_outputs = Returned pools /\
    non_maximal_suppression (map as_floats (concat pools)) = Returned out /\
    out <> [] /\
    StronglySorted (fun a b => (p4 b <=? p4 a)%float = true) out /\
    forall b, In b out ->
      In b (map as_floats (concat pools)) /\ (0.6 <? p4 b)%float = true.
Proof.
  intros cell26 self total_outputs out.
  apply (interpreted_outputs_pool_the_batch (fun t => t) (fun t => t) self total_outputs out).
  vm_compute. reflexivity.
Defined.

(** ** The boxes of one image *)

Lemma patch_cell_at_most_one (expit np_exp : float -> float) (self : DPPModel)
  (num_patches_horiz : Z) (img_data : list (list float)) (i j : nat) (bs : list PredBox) :
  patch_cell expit np_exp self num_patches_horiz img_data i j = Returned bs ->
  length bs <= 1.
Proof.
  intros H. apply patch_cell_stitched in H.
  destruct H as (patch & k & conf & _ & _ & Hlow & Hhigh).
  destruct (0.6 <? conf)%float eqn:E.
  - destruct (Hhigh eq_refl) as (lx & ly & prior & x1 & y1 & x2 & y2 & _ & _ & _ & H).
    simpl in H. destruct H as (_ & _ & _ & _ & ->). simpl. lia.
  - rewrite (Hlow eq_refl). simpl. lia.
Qed.

Lemma length_concat_bounded {A : Type} (ls : list (list A)) (n : nat) :
  Forall (fun l => length l <= n) ls -> length (concat ls) <= length ls * n.
Proof.
  induction 1 as [|l ls Hl H IH]; simpl; [lia|]. rewrite length_app. lia.
Qed.

(** X11: an image contributes at most one box per grid cell of every patch. *)
Theorem at_most_one_box_per_cell (expit np_exp : float -> float) (self : DPPModel)
  (num_patches_horiz num_patches_vert : Z) (img_data : list (list float))
  (pooled : list PredBox) :
  image_boxes expit np_exp self num_patches_horiz num_patches_vert img_data = Returned pooled ->
  length pooled
  <= Z.to_nat (num_patches_vert * num_patches_horiz) * Z.to_nat (grid_w self * grid_h self).
Proof.
  unfold image_boxes. intros H. bind_inv H. injection H as <-.
  rename a into boxes. pose proof (mapM_Forall2 _ _ _ Ha) as HF.
  apply mapM_nth_error in Ha. destruct Ha as [Hlen _].
  rewrite length_prod, !length_seq in Hlen. rewrite <- Hlen.
  assert (Hone : Forall (fun bs => length bs <= 1) boxes).
  { rewrite Forall_forall. intros bs Hbs.
    destruct (Forall2_In_r _ _ _ _ HF Hbs) as ([i j] & _ & Hij).
    eapply patch_cell_at_most_one. exact Hij. }
  apply length_concat_bounded in Hone. lia.
Qed.

Lemma at_most_one_box_per_cell_witness :
  let cell26 := fun tx ty tw th c : float =>
    [tx; ty; tw; th; c; 0; 0; 0; 0; 0; 0; 0; 0; 0; 0; 0; 0; 0; 0; 0; 0; 0; 0; 0; 0; 1]%float in
  let self :=
    mkModel 1 1 5 [(1, 1); (1, 1); (1, 1); (1, 1); (1, 1)]%float 0.6 0.3 0.5 100 50 50 50 in
  length [mkPredBox 85 37 95 42 0.9]
  <= Z.to_nat (1 * 2) * Z.to_nat (grid_w self * grid_h self).
Proof.
  intros cell26 self.
  apply (at_most_one_box_per_cell (fun t => t) (fun t => t) self 2 1
           [cell26 0.1 0.1 0.1 0.1 0.2; cell26 0.8 0.8 0.1 0.1 0.9]%float).
  vm_compute. reflexivity.
Defined.

(** ** One patch and no patching *)

Lemma bind_ext {A B : Type} (m : outcome A) (k k' : A -> outcome B) :
  (forall a, k a = k' a) -> bind m k = bind m k'.
Proof. intros H. destruct m; simpl; auto. Qed.

Lemma mapM_ext {A B : Type} (f g : A -> outcome B) (l : list A) :
  (forall a, f a = g a) -> mapM f l = mapM g l.
Proof.
  intros H. induction l as [|a l IH]; simpl; [reflexivity|]. now rewrite H, IH.
Qed.

Lemma mapM_map {A B C : Type} (f : B -> outcome C) (g : A -> B) (l : list A) :
  mapM f (map g l) = mapM (fun a => f (g a)) l.
Proof. induction l as [|a l IH]; simpl; [reflexivity|]. now rewrite IH. Qed.

(** Adding [+0.0] changes a float only when it is [-0.0]. *)
Lemma add_zero_cases (x : float) :
  (x + 0)%float = x \/
  (Prim2SF x = S754_zero true /\ Prim2SF (x + 0)%float = S754_zero false).
Proof.
  pose proof (add_spec x 0) as H. change (Prim2SF 0) with (S754_zero false) in H.
  destruct (Prim2SF x) as [[|]| | |] eqn:E; simpl in H.
  - right. auto.
  - left. apply Prim2SF_inj. congruence.
  - left. apply Prim2SF_inj. congruence.
  - left. apply Prim2SF_inj. congruence.
  - left. apply Prim2SF_inj. congruence.
Qed.

Lemma py_int_add_zero_sub (x h : float) :
  py_int ((x + 0) - h)%float = py_int (x - h)%float.
Proof.
  destruct (add_zero_cases x) as [->|[Hx Hx0]]; [reflexivity|].
  unfold py_int. rewrite !sub_spec, Hx, Hx0.
  destruct (Prim2SF h) as [[|]|[|]| |[|] m e]; reflexivity.
Qed.

Lemma py_int_add_zero_add (x h : float) :
  py_int ((x + 0) + h)%float = py_int (x + h)%float.
Proof.
  destruct (add_zero_cases x) as [->|[Hx Hx0]]; [reflexivity|].
  unfold py_int. rewrite !(add_spec _ h), Hx, Hx0.
  destruct (Prim2SF h) as [[|]|[|]| |[|] m e]; reflexivity.
Qed.

Lemma patch_cell_single (expit np_exp : float -> float) (self : DPPModel)
  (img_data : list float) (j : nat) :
  patch_width self = image_width self -> patch_height self = image_height self ->
  patch_cell expit np_exp self 1 [img_data] 0 j = grid_cell expit np_exp self img_data j.
Proof.
  intros Hw Hh. unfold patch_cell, grid_cell. rewrite Hw, Hh.
  change (index [img_data] 0) with (Returned img_data). cbn [bind].
  do 7 (apply bind_ext; intros ?).
  destruct (0.6 <? _)%float; [|reflexivity].
  do 9 (apply bind_ext; intros ?).
  change (Z.of_nat 0 mod 1)%Z with 0%Z. change (Z.of_nat 0 / 1)%Z with 0%Z.
  change (0 * image_width self)%Z with 0%Z. change (0 * image_height self)%Z with 0%Z.
  change (float_of_int 0) with 0%float.
  rewrite !py_int_add_zero_sub, !py_int_add_zero_add. reflexivity.
Qed.

Lemma image_boxes_single (expit np_exp : float -> float) (self : DPPModel)
  (img_data : list float) :
  patch_width self = image_width self -> patch_height self = image_height self ->
  image_boxes expit np_exp self 1 1 [img_data] = grid_boxes expit np_exp self img_data.
Proof.
  intros Hw Hh. unfold image_boxes, grid_boxes.
  change (Z.to_nat (1 * 1)) with 1. cbn [seq list_prod]. rewrite app_nil_r, mapM_map.
  f_equal. apply mapM_ext. intros j. cbn [fst snd]. now apply patch_cell_single.
Qed.

Lemma interpret_images_single (expit np_exp : float -> float) (self : DPPModel)
  (total_outputs : list (list float)) :
  patch_width self = image_width self -> patch_height self = image_height self ->
  forall total_pred_boxes interpreted,
  interpret_images expit np_exp self 1 1 (map (fun img_data => [img_data]) total_outputs)
                   total_pred_boxes interpreted
  = interpret_grids expit np_exp self total_outputs total_pred_boxes interpreted.
Proof.
  intros Hw Hh. induction total_outputs as [|img_data rest IH]; intros total interpreted;
    [reflexivity|].
  simpl. rewrite image_boxes_single by assumption.
  apply bind_ext. intros boxes. apply bind_ext. intros kept. apply IH.
Qed.

(** X12: with one patch that is the whole image, the pass with patching
    returns what the pass without patching returns on the same network
    outputs (and raises when that one raises). *)
Theorem single_patch_is_no_patching (expit np_exp : float -> float) (self : DPPModel)
  (total_outputs : list (list float)) :
  patch_width self = image_width self -> patch_height self = image_height self ->
  image_width self <> 0%Z -> image_height self <> 0%Z ->
  interpreted_outputs_with_patching expit np_exp self
    (map (fun img_data => [img_data]) total_outputs)
  = interpreted_outputs_without_patching expit np_exp self total_outputs.
Proof.
  intros Hw Hh Hw0 Hh0.
  unfold interpreted_outputs_with_patching, interpreted_outputs_without_patching.
  rewrite Hw, Hh.
  destruct (image_height self =? 0)%Z eqn:E1; [apply Z.eqb_eq in E1; contradiction|].
  destruct (image_width self =? 0)%Z eqn:E2; [apply Z.eqb_eq in E2; contradiction|].
  cbn [orb]. rewrite !Z.div_same by assumption.
  now apply interpret_images_single.
Qed.

Lemma single_patch_is_no_patching_witness :
  let cell26 := fun tx ty tw th c : float =>
    [tx; ty; tw; th; c; 0; 0; 0; 0; 0; 0; 0; 0; 0; 0; 0; 0; 0; 0; 0; 0; 0; 0; 0; 0; 1]%float in
  let self :=
    mkModel 1 1 5 [(1, 1); (1, 1); (1, 1); (1, 1); (1, 1)]%float 0.6 0.3 0.5 100 50 100 50 in
  interpreted_outputs_with_patching (fun t => t) (fun t => t) self
    (map (fun img_data => [img_data]) [cell26 0.8 0.8 0.1 0.1 0.9]%float)
  = interpreted_outputs_without_patching (fun t => t) (fun t => t) self
      [cell26 0.8 0.8 0.1 0.1 0.9]%float.
Proof.
  intros cell26 self.
  apply (single_patch_is_no_patching (fun t => t) (fun t => t) self); simpl; lia.
Defined.

(** ** The batches of the forward pass *)

Lemma delete_last_step {A : Type} (n : nat) (l : list A) (x : A) :
  delete_last (S n) (l ++ [x]) = delete_last n l.
Proof.
  simpl. rewrite removelast_last. destruct (l ++ [x]) eqn:E; [|reflexivity].
  destruct l; discriminate.
Qed.

Lemma delete_last_firstn {A : Type} (n : nat) :
  forall a : list A, n <= length a -> delete_last n a = Returned (firstn (length a - n) a).
Proof.
  induction n as [|n IH]; intros a Hn.
  - simpl. now rewrite Nat.sub_0_r, firstn_all.
  - destruct (last_cases a) as [->|(l & x & ->)]; [simpl in Hn; lia|].
    rewrite length_app in *. simpl in Hn.
    rewrite delete_last_step, IH by lia. simpl length.
    replace (length l + 1 - S n) with (length l - n) by lia.
    rewrite firstn_app.
    replace (length l - n - length l) with 0 by lia.
    simpl. now rewrite app_nil_r.
Qed.

Lemma append_rows {A : Type} (xx total : list A) :
  fold_left (fun t img => t ++ [img]) xx total = total ++ xx.
Proof.
  revert total. induction xx as [|img xx IH]; intros total; simpl.
  - now rewrite app_nil_r.
  - now rewrite IH, <- app_assoc.
Qed.

Lemma append_runs {A : Type} (runs : list (list A)) (total : list A) :
  fold_left (fun total xx => fold_left (fun t img => t ++ [img]) xx total) runs total
  = total ++ concat runs.
Proof.
  revert total. induction runs as [|xx runs IH]; intros total; simpl.
  - now rewrite app_nil_r.
  - now rewrite IH, append_rows, <- app_assoc.
Qed.

Lemma length_concat_uniform {A : Type} (runs : list (list A)) (n : nat) :
  Forall (fun xx => length xx = n) runs -> length (concat runs) = length runs * n.
Proof.
  induction 1 as [|xx runs Hxx H IH]; simpl; [reflexivity|].
  rewrite length_app, IH, Hxx. lia.
Qed.

(** X13: after the trimming there is one row per input image: the rows are
    the first [len_x] rows that the runs produced. *)
Theorem collected_outputs_match_inputs {A : Type} (first_row : A) (runs : list (list A))
  (len_x batch_size num_batches remainder : Z) :
  (0 <= len_x)%Z -> (0 < batch_size)%Z ->
  batch_plan len_x batch_size = Returned (num_batches, remainder) ->
  Z.of_nat (length runs) = num_batches ->
  Forall (fun xx => Z.of_nat (length xx) = batch_size) runs ->
  exists total_outputs,
    collect_outputs first_row runs remainder = Returned total_outputs /\
    total_outputs = firstn (Z.to_nat len_x) (concat runs) /\
    Z.of_nat (length total_outputs) = len_x.
Proof.
  intros Hx Hb Hplan Hruns Hrows.
  assert (Hlen : Z.of_nat (length (concat runs)) = (num_batches * batch_size)%Z).
  { rewrite (length_concat_uniform runs (Z.to_nat batch_size)).
    - rewrite Nat2Z.inj_mul, Hruns, Z2Nat.id by lia. reflexivity.
    - eapply Forall_impl; [|exact Hrows]. simpl. intros xx Hxx. lia. }
  unfold batch_plan, py_floordiv, py_mod in Hplan.
  destruct (batch_size =? 0)%Z eqn:E0; [lia|]. simpl in Hplan.
  pose proof (Z.div_mod len_x batch_size ltac:(lia)) as Hdm.
  pose proof (Z.mod_pos_bound len_x batch_size Hb) as Hmod.
  unfold collect_outputs. rewrite append_runs. simpl tl.
  destruct (len_x mod batch_size =? 0)%Z eqn:Er; simpl in Hplan;
    injection Hplan as Hn Hr.
  - apply Z.eqb_eq in Er. subst remainder. rewrite Er. simpl.
    assert (Z.to_nat len_x = length (concat runs)) by nia.
    eexists. split; [reflexivity|]. split.
    + rewrite H. now rewrite firstn_all.
    + nia.
  - apply Z.eqb_neq in Er.
    assert (Hrem : (remainder =? 0)%Z = false) by (apply Z.eqb_neq; lia).
    rewrite Hrem. simpl.
    rewrite delete_last_firstn by nia.
    assert (length (concat runs) - Z.to_nat remainder = Z.to_nat len_x) by nia.
    rewrite H. eexists. split; [reflexivity|]. split; [reflexivity|].
    rewrite length_firstn. nia.
Qed.

Lemma collected_outputs_match_inputs_witness :
  exists total_outputs,
    collect_outputs 0%Z [[1; 2]; [3; 4]; [5; 6]]%Z 1 = Returned total_outputs /\
    total_outputs = firstn (Z.to_nat 5) (concat [[1; 2]; [3; 4]; [5; 6]]%Z) /\
    Z.of_nat (length total_outputs) = 5%Z.
Proof.
  apply (collected_outputs_match_inputs 0%Z [[1; 2]; [3; 4]; [5; 6]]%Z 5 2 3 1).
  - lia.
  - lia.
  - reflexivity.
  - reflexivity.
  - repeat constructor.
Defined.

(** ** The setters and what they let through *)

Lemma mapM_length {A B : Type} (f : A -> outcome B) (l : list A) (out : list B) :
  mapM f l = Returned out -> length out = length l.
Proof. intros H. now apply mapM_nth_error in H. Qed.

(** X14: after [set_yolo_parameters] there is one scaled anchor per box and at
    least one box; the image and patch sizes and the thresholds are
    untouched. *)
Theorem set_yolo_parameters_anchors_match_boxes (self self' : DPPModel)
  (grid_size : option (list Z)) (anchors : option (list (list Z))) :
  set_yolo_parameters self grid_size anchors = Returned self' ->
  length (ANCHORS self') = NUM_BOXES self' /\
  0 < NUM_BOXES self' /\
  (NUM_BOXES self' = match anchors with
                     | None | Some [] => 5
                     | Some a => length a
                     end) /\
  image_width self' = image_width self /\ image_height self' = image_height self /\
  THRESH_SIG self' = THRESH_SIG self /\ THRESH_OVERLAP self' = THRESH_OVERLAP self /\
  THRESH_CORRECT self' = THRESH_CORRECT self.
Proof.
  unfold set_yolo_parameters. intros H.
  destruct (_ || _); [discriminate|].
  bind_inv H. rename a into grid. bind_inv H. rename a into raw. rename Ha0 into Hraw.
  bind_inv H. bind_inv H. bind_inv H. rename a1 into scaled. rename Ha2 into Hs.
  injection H as <-. cbn [ANCHORS NUM_BOXES image_width image_height THRESH_SIG
                           THRESH_OVERLAP THRESH_CORRECT].
  apply mapM_length in Hs.
  split; [assumption|].
  assert (Hn : length raw = match anchors with
                            | None | Some [] => 5
                            | Some a => length a
                            end).
  { destruct anchors as [[|x al]|]; try (injection Hraw as <-; reflexivity).
    destruct (forallb _ _); [|discriminate]. now injection Hraw as <-. }
  split; [|split; [exact Hn|repeat split]].
  rewrite Hn. destruct anchors as [[|x al]|]; simpl; lia.
Qed.

Lemma set_yolo_parameters_anchors_match_boxes_witness :
  let self := mkModel 1 1 5 [] 0.6 0.3 0.5 100 100 0 0 in
  let self' := mkModel 2 2 1 [(0.2, 0.4)]%float 0.6 0.3 0.5 100 100 0 0 in
  length (ANCHORS self') = NUM_BOXES self' /\
  0 < NUM_BOXES self' /\
  (NUM_BOXES self' = length [[10; 20]%Z]) /\
  image_width self' = image_width self /\ image_height self' = image_height self /\
  THRESH_SIG self' = THRESH_SIG self /\ THRESH_OVERLAP self' = THRESH_OVERLAP self /\
  THRESH_CORRECT self' = THRESH_CORRECT self.
Proof.
  intros self self'.
  apply (set_yolo_parameters_anchors_match_boxes self self' (Some [2; 2]%Z)
           (Some [[10; 20]]%Z)).
  vm_compute. reflexivity.
Defined.




Lemma patch_crop_bounds (self : DPPModel) :
  (0 < patch_height self)%Z -> (0 < patch_width self)%Z ->
  (0 <= image_height self)%Z -> (0 <= image_width self)%Z ->
  exists c,
    patch_crop self = Returned c /\
    final_height c = (num_patches_vert c * patch_height self)%Z /\
    final_width c = (num_patches_horiz c * patch_width self)%Z /\
    (0 <= offset_height c /\ offset_height c + final_height c <= image_height self)%Z /\
    (0 <= offset_width c /\ offset_width c + final_width c <= image_width self)%Z /\
    (image_height self - final_height c < patch_height self)%Z /\
    (image_width self - final_width c < patch_width self)%Z /\
    (0 <= image_height self - final_height c - 2 * offset_height c <= 1)%Z /\
    (0 <= image_width self - final_width c - 2 * offset_width c <= 1)%Z.
Proof.
  intros Hph Hpw Hh Hw. unfold patch_crop, py_floordiv.
  destruct (patch_height self =? 0)%Z eqn:E1; [lia|].
  destruct (patch_width self =? 0)%Z eqn:E2; [lia|].
  cbn [bind Z.eqb]. eexists. split; [reflexivity|].
  cbn [final_height final_width num_patches_vert num_patches_horiz offset_height offset_width].
  pose proof (Z.div_mod (image_height self) (patch_height self) ltac:(lia)).
  pose proof (Z.mod_pos_bound (image_height self) (patch_height self) Hph).
  pose proof (Z.div_mod (image_width self) (patch_width self) ltac:(lia)).
  pose proof (Z.mod_pos_bound (image_width self) (patch_width self) Hpw).
  set (rows := (image_height self / patch_height self)%Z) in *.
  set (cols := (image_width self / patch_width self)%Z) in *.
  pose proof (Z.div_mod (image_height self - rows * patch_height self) 2 ltac:(lia)).
  pose proof (Z.mod_pos_bound (image_height self - rows * patch_height self) 2 ltac:(lia)).
  pose proof (Z.div_mod (image_width self - cols * patch_width self) 2 ltac:(lia)).
  pose proof (Z.mod_pos_bound (image_width self - cols * patch_width self) 2 ltac:(lia)).
  repeat split; lia.
Qed.

(** X16: a patch size that [set_patch_size] accepts gives a crop that is
    computed, lies inside the image, is made of whole patches, leaves less
    than one patch out, and has margins that differ by at most one
    pixel. *)
Theorem patch_crop_inside_image (self self' : DPPModel) (height width : Z) :
  (0 <= image_height self)%Z -> (0 <= image_width self)%Z ->
  set_patch_size self height width = Returned self' ->
  exists c,
    patch_crop self' = Returned c /\
    final_height c = (num_patches_vert c * height)%Z /\
    final_width c = (num_patches_horiz c * width)%Z /\
    (0 <= offset_height c /\ offset_height c + final_height c <= image_height self)%Z /\
    (0 <= offset_width c /\ offset_width c + final_width c <= image_width self)%Z /\
    (image_height self - final_height c < height)%Z /\
    (image_width self - final_width c < width)%Z /\
    (0 <= image_height self - final_height c - 2 * offset_height c <= 1)%Z /\
    (0 <= image_width self - final_width c - 2 * offset_width c <= 1)%Z.
Proof.
  intros Hh Hw H. unfold set_patch_size in H.
  destruct (height <=? 0)%Z eqn:E1; [discriminate|].
  destruct (width <=? 0)%Z eqn:E2; [discriminate|].
  injection H as <-. apply Z.leb_gt in E1, E2.
  apply (patch_crop_bounds (mkModel _ _ _ _ _ _ _ _ _ _ _)); assumption.
Qed.

Lemma patch_crop_inside_image_witness :
  let self := mkModel 1 1 5 [] 0.6 0.3 0.5 105 53 0 0 in
  exists c,
    patch_crop (mkModel 1 1 5 [] 0.6 0.3 0.5 105 53 50 50) = Returned c /\
    final_height c = (num_patches_vert c * 50)%Z /\
    final_width c = (num_patches_horiz c * 50)%Z /\
    (0 <= offset_height c /\ offset_height c + final_height c <= image_height self)%Z /\
    (0 <= offset_width c /\ offset_width c + final_width c <= image_width self)%Z /\
    (image_height self - final_height c < 50)%Z /\
    (image_width self - final_width c < 50)%Z /\
    (0 <= image_height self - final_height c - 2 * offset_height c <= 1)%Z /\
    (0 <= image_width self - final_width c - 2 * offset_width c <= 1)%Z.
Proof.
  intros self.
  apply (patch_crop_inside_image self (mkModel 1 1 5 [] 0.6 0.3 0.5 105 53 50 50) 50 50).
  - simpl. lia.
  - simpl. lia.
  - reflexivity.
Defined.

(** X17: a patch that is higher or wider than the image leaves no patch at
    all, and the pass with patching raises on any batch. *)
Theorem patch_larger_than_image_raises (expit np_exp : float -> float) (self : DPPModel)
  (total_outputs : list (list (list float))) :
  (0 <= image_height self < patch_height self)%Z \/
  (0 <= image_width self < patch_width self)%Z ->
  interpreted_outputs_with_patching expit np_exp self total_outputs = Raised.
Proof.
  intros H. unfold interpreted_outputs_with_patching.
  destruct (_ || _); [reflexivity|].
  destruct total_outputs as [|img_data rest]; [reflexivity|].
  assert (Hn : Z.to_nat (image_height self / patch_height self
                         * (image_width self / patch_width self)) = 0).
  { destruct H as [H|H]; rewrite (Z.div_small _ _ H); lia. }
  simpl. unfold image_boxes. rewrite Hn. reflexivity.
Qed.

Lemma patch_larger_than_image_raises_witness :
  interpreted_outputs_with_patching (fun t => t) (fun t => t)
    (mkModel 1 1 5 [(1, 1); (1, 1); (1, 1); (1, 1); (1, 1)]%float 0.6 0.3 0.5 100 50 50 64)
    [[[0.5]]]%float
  = Raised.
Proof.
  apply patch_larger_than_image_raises. left. simpl. lia.
Defined.

(** ** More on the evaluator *)

Lemma match_predictions_finishes (thresh : float) (rows : list (float * list float)) :
  forall matched, match_predictions thresh rows matched <> Unfinished.
Proof.
  induction rows as [|[conf ious] rows IH]; intros matched; simpl; [discriminate|].
  destruct (np_argmax ious) as [j| |] eqn:E; simpl; try discriminate.
  - destruct (_ && _).
    + specialize (IH (assign matched j true)).
      destruct (match_predictions thresh rows (assign matched j true)); simpl; congruence.
    + specialize (IH matched).
      destruct (match_predictions thresh rows matched); simpl; congruence.
  - destruct ious; discriminate.
Qed.

Lemma image_detections_finishes (self : DPPModel) (im_lab : option (list Label))
  (im_pred : option (list (Pred * list float))) :
  image_detections self im_lab im_pred <> Unfinished.
Proof.
  destruct im_pred as [im_pred|]; [|discriminate].
  destruct im_lab as [im_lab|]; [|discriminate].
  apply match_predictions_finishes.
Qed.

Lemma all_detections_raises (self : DPPModel)
  (images : list (option (list Label) * option (list (Pred * list float))))
  (im : option (list Label) * option (list (Pred * list float))) :
  In im images -> image_detections self (fst im) (snd im) = Raised ->
  all_detections self images = Raised.
Proof.
  induction images as [|[l p] images IH]; intros Hin Him; [destruct Hin|].
  simpl. destruct Hin as [<-|Hin].
  - simpl in Him. rewrite Him. reflexivity.
  - pose proof (image_detections_finishes self l p) as Hf.
    destruct (image_detections self l p); simpl; try congruence.
    rewrite (IH Hin Him). reflexivity.
Qed.

(** X18: an image whose label array is present but has no row makes the
    evaluator raise as soon as the image has a prediction: the arg-max of
    an empty row of IoUs. *)
Theorem yolo_map_empty_labels_raise (self : DPPModel)
  (labels : list (option (list Label))) (preds : list (option (list (Pred * list float))))
  (r : Pred * list float) (rs : list (Pred * list float)) :
  In (Some [], Some (r :: rs)) (combine labels preds) ->
  yolo_map self labels preds = Raised.
Proof.
  intros Hin. unfold yolo_map.
  rewrite (all_detections_raises self _ _ Hin); reflexivity.
Qed.

Lemma yolo_map_empty_labels_raise_witness :
  yolo_map (mkModel 1 1 5 [] 0.6 0.3 0.5 100 100 0 0)
    [None; Some []] [None; Some [(mkPred 0 0 10 10 0.9, [1])]%float] = Raised.
Proof.
  apply (yolo_map_empty_labels_raise _ _ _ (mkPred 0 0 10 10 0.9, [1])%float []).
  simpl. right. left. reflexivity.
Defined.

Lemma all_detections_no_predictions (self : DPPModel) (labels : list (option (list Label)))
  (preds : list (option (list (Pred * list float)))) :
  Forall (fun p => p = None) preds ->
  all_detections self (combine labels preds) = Returned [].
Proof.
  intros H. revert labels. induction H as [|p preds Hp H IH]; intros [|l labels];
    try reflexivity.
  simpl. subst p. simpl. rewrite IH. reflexivity.
Qed.

(** X19: with no prediction for any image the mAP is 0, whatever the labels. *)
Theorem yolo_map_without_predictions (self : DPPModel)
  (labels : list (option (list Label))) (preds : list (option (list (Pred * list float)))) :
  Forall (fun p => p = None) preds ->
  yolo_map self labels preds = Returned 0%float.
Proof.
  intros H. unfold yolo_map. now rewrite all_detections_no_predictions.
Qed.

Lemma yolo_map_without_predictions_witness :
  yolo_map (mkModel 1 1 5 [] 0.6 0.3 0.5 100 100 0 0)
    [Some [mkLabel 1 1 (mkBox 0 0 10 10)]; None] [None; None] = Returned 0%float.
Proof.
  apply yolo_map_without_predictions. repeat constructor.
Defined.

(** X20: with exactly one detection in the whole data set the mAP is 0, also
    when the detection is a true positive: the sum runs over the
    precisions after the first. *)
Theorem yolo_map_of_one_detection (self : DPPModel)
  (labels : list (option (list Label))) (preds : list (option (list (Pred * list float))))
  (d : float * bool) :
  all_detections self (combine labels preds) = Returned [d] ->
  yolo_map self labels preds = Returned 0%float.
Proof.
  intros H. unfold yolo_map. rewrite H. reflexivity.
Qed.

Lemma yolo_map_of_one_detection_witness :
  yolo_map (mkModel 1 1 5 [] 0.6 0.3 0.5 100 100 0 0)
    [Some [mkLabel 1 1 (mkBox 0 0 10 10)]] [Some [(mkPred 0 0 10 10 0.9, [1])]%float]
  = Returned 0%float.
Proof.
  apply (yolo_map_of_one_detection _ _ _ (0.9%float, true)). vm_compute. reflexivity.
Defined.

(** ** The precision envelope *)

Lemma np_maximum_cases (q p : float) :
  is_nan q = false -> is_nan p = false ->
  is_nan (np_maximum q p) = false /\
  (q <=? np_maximum q p)%float = true /\ (p <=? np_maximum q p)%float = true.
Proof.
  intros Hq Hp. unfold np_maximum. rewrite Hq.
  destruct (p <? q)%float eqn:E.
  - split; [assumption|]. split; [now apply leb_refl | now apply ltb_leb].
  - split; [assumption|]. split; [now apply ltb_total | now apply leb_refl].
Qed.

Lemma precision_envelope_length (precision : list float) :
  length (precision_envelope precision) = length precision.
Proof.
  induction precision as [|p rest IH]; simpl; [reflexivity|].
  destruct (precision_envelope rest) as [|q rest'] eqn:E; simpl in *; lia.
Qed.

(** X21: on numbers the backward loop leaves a sequence that never increases
    and that is nowhere below the sequence it was given; the length and
    the last value are kept. *)
Theorem precision_envelope_monotone (precision : list float) :
  Forall (fun p => is_nan p = false) precision ->
  length (precision_envelope precision) = length precision /\
  StronglySorted (fun a b => (b <=? a)%float = true) (precision_envelope precision) /\
  Forall2 (fun p e => (p <=? e)%float = true) precision (precision_envelope precision) /\
  last (precision_envelope precision) nan = last precision nan.
Proof.
  intros H. split; [apply precision_envelope_length|].
  assert (Hnan : Forall (fun p => is_nan p = false) (precision_envelope precision) /\
                 StronglySorted (fun a b => (b <=? a)%float = true)
                   (precision_envelope precision) /\
                 Forall2 (fun p e => (p <=? e)%float = true) precision
                   (precision_envelope precision) /\
                 last (precision_envelope precision) nan = last precision nan).
  { induction H as [|p rest Hp H IH]; simpl.
    - repeat split; constructor.
    - destruct IH as (Hn & Hs & Hd & Hl).
      pose proof (precision_envelope_length rest) as Hlen.
      destruct (precision_envelope rest) as [|q rest'] eqn:E.
      + destruct rest; [|discriminate].
        repeat split; repeat constructor; auto. now apply leb_refl.
      + inversion Hn as [|? ? Hq Hn']; subst.
        inversion Hs as [|? ? Hs' Hall]; subst.
        destruct (np_maximum_cases q p Hq Hp) as (Hm & Hqm & Hpm).
        split; [|split; [|split]].
        * constructor; assumption.
        * constructor; [assumption|]. constructor; [assumption|].
          rewrite Forall_forall in *. intros x Hx. eapply leb_trans; [|exact Hqm]. auto.
        * constructor; assumption.
        * destruct rest as [|p' rest0]; [discriminate|]. exact Hl. }
  tauto.
Qed.

Lemma precision_envelope_monotone_witness :
  let precision := [1; 0.5; 0.6666; 0.5]%float in
  length (precision_envelope precision) = length precision /\
  StronglySorted (fun a b => (b <=? a)%float = true) (precision_envelope precision) /\
  Forall2 (fun p e => (p <=? e)%float = true) precision (precision_envelope precision) /\
  last (precision_envelope precision) nan = last precision nan.
Proof.
  intros precision. apply precision_envelope_monotone. repeat constructor.
Defined.

(** ** The conversion of the labels *)



(** ** From the conversion to the filter *)

Lemma mapM_Returned {A B : Type} (f : A -> outcome B) (l : list A) :
  (forall a, In a l -> exists b, f a = Returned b) -> exists out, mapM f l = Returned out.
Proof.
  induction l as [|a l IH]; intros H; simpl; [eauto|].
  destruct (H a (or_introl eq_refl)) as [b ->]. simpl.
  destruct IH as [out ->]; [intros; apply H; now right|]. simpl. eauto.
Qed.

(** The rows the conversion returns: [NUM_BOXES] boxes of five values,
    then the class predictions of the input row. *)
Lemma convert_preds_rows (expit np_exp : float -> float) (self : DPPModel)
  (preds out : list (list float)) :
  convert_preds expit np_exp self preds = Returned out ->
  exists f : nat -> nat -> Pred,
    out = map (fun j =>
                 concat (map (fun b => [p0 (f j b); p1 (f j b); p2 (f j b); p3 (f j b);
                                        p4 (f j b)])
                             (seq 0 (NUM_BOXES self)))
                 ++ skipn (NUM_BOXES self * 5) (nth j preds []))
              (seq 0 (length preds)).
Proof.
  unfold convert_preds. intros H.
  bind_inv H. rename a into cells. rename Ha into Hcells.
  destruct (length (ANCHORS self) =? NUM_BOXES self); simpl in H; [|discriminate].
  bind_inv H. rename a into corners. injection H as <-.
  apply mapM_nth_error in Hcells. destruct Hcells as [Hlen _].
  exists (fun j b =>
    let '(pred_x1, pred_y1, pred_x2, pred_y2) := nth b corners ([], [], [], []) in
    mkPred (nth j pred_x1 nan) (nth j pred_y1 nan) (nth j pred_x2 nan) (nth j pred_y2 nan)
           (nth b (nth j (map (map (fun p => expit (p4 p))) cells) []) nan)).
  rewrite Hlen. apply map_ext_in. intros j Hj. apply in_seq in Hj. f_equal.
  - f_equal. apply map_ext. intros b.
    destruct (nth b corners ([], [], [], [])) as [[[? ?] ?] ?]. reflexivity.
  - apply (nth_map_in (skipn (NUM_BOXES self * 5)) preds j [] []). lia.
Qed.

(** X23: what the conversion returns can always be read by the filter: as
    long as there is a cell and a box per cell, the responsible boxes are
    found, one per cell, with the class predictions of the input. *)
Theorem converted_predictions_can_be_filtered (expit np_exp : float -> float)
  (self : DPPModel) (preds out : list (list float)) :
  convert_preds expit np_exp self preds = Returned out ->
  preds <> [] -> 0 < NUM_BOXES self ->
  exists rows,
    responsible_boxes self out = Returned rows /\
    length rows = length preds /\
    (forall j r, nth_error rows j = Some r ->
       snd r = skipn (NUM_BOXES self * 5) (nth j preds [])) /\
    forall fuel, yolo_filter_predictions self fuel out = detection_filter self fuel rows.
Proof.
  intros H Hne Hnb. destruct (convert_preds_rows _ _ _ _ _ H) as [f Hout].
  assert (Hall : forall j, exists r,
            responsible_box self
              (concat (map (fun b => [p0 (f j b); p1 (f j b); p2 (f j b); p3 (f j b);
                                      p4 (f j b)])
                           (seq 0 (NUM_BOXES self)))
               ++ skipn (NUM_BOXES self * 5) (nth j preds []))
            = Returned r /\ snd r = skipn (NUM_BOXES self * 5) (nth j preds [])).
  { intros j. unfold responsible_box.
    pose proof (reshape5_concat (f j) (seq 0 (NUM_BOXES self))
                  (skipn (NUM_BOXES self * 5) (nth j preds []))) as R.
    pose proof (skipn_concat5 (f j) (seq 0 (NUM_BOXES self))
                  (skipn (NUM_BOXES self * 5) (nth j preds []))) as S5.
    rewrite length_seq in R, S5. rewrite R, S5. cbn [bind].
    destruct (np_argmax (map p4 (map (f j) (seq 0 (NUM_BOXES self))))) as [k| |] eqn:Ek.
    - apply np_argmax_bound in Ek. rewrite !length_map, length_seq in Ek.
      destruct (nth_error (map (f j) (seq 0 (NUM_BOXES self))) k) as [box|] eqn:Eb;
        [|apply nth_error_None in Eb; rewrite length_map, length_seq in Eb; lia].
      cbn [bind]. unfold index. rewrite Eb. simpl. eauto.
    - destruct (NUM_BOXES self); [lia | discriminate].
    - destruct (NUM_BOXES self); [lia | discriminate]. }
  destruct (mapM_Returned (responsible_box self) out) as [rows Hrows].
  { intros row Hin. rewrite Hout in Hin. apply in_map_iff in Hin.
    destruct Hin as (j & <- & _). destruct (Hall j) as (r & Hr & _). eauto. }
  exists rows.
  assert (Hresp : responsible_boxes self out = Returned rows).
  { unfold responsible_boxes. destruct out as [|row out'] eqn:Eo; [|exact Hrows].
    destruct preds; [congruence | discriminate]. }
  split; [assumption|].
  apply mapM_nth_error in Hrows. destruct Hrows as [Hlen Hrows].
  split; [rewrite Hlen, Hout; now rewrite length_map, length_seq|].
  split.
  - intros j r Hj.
    assert (Hjl : j < length out) by (rewrite <- Hlen; apply nth_error_Some; congruence).
    rewrite Hout, length_map, length_seq in Hjl.
    destruct (Hrows j _ ltac:(rewrite Hout; apply nth_error_map_seq; exact Hjl))
      as (r' & Hr' & Hnth).
    destruct (Hall j) as (r'' & Hr'' & Hs). congruence.
  - intros fuel. unfold yolo_filter_predictions. rewrite Hresp. reflexivity.
Qed.

Lemma converted_predictions_can_be_filtered_witness :
  let self := mkModel 1 1 2 [(1, 2); (3, 1)]%float 0.6 0.3 0.5 100 50 0 0 in
  let preds := [[0; 1; 0; 1; 2; 1; 0; 1; 0; 3; 1]%float] in
  let out := [[50; -75; 150; 125; 0.2; -250; 25; 350; 75; 0.1; 1]%float] in
  exists rows,
    responsible_boxes self out = Returned rows /\
    length rows = length preds /\
    (forall j r, nth_error rows j = Some r ->
       snd r = skipn (NUM_BOXES self * 5) (nth j preds [])) /\
    forall fuel, yolo_filter_predictions self fuel out = detection_filter self fuel rows.
Proof.
  intros self preds out.
  apply (converted_predictions_can_be_filtered
           (fun t => (1 / (1 + t * t))%float) (fun t => (1 + t * t)%float) self preds out).
  - vm_compute. reflexivity.
  - discriminate.
  - simpl. lia.
Defined.

(** ** The evaluation of a test set *)

Lemma match_predictions_returns (thresh : float) (rows : list (float * list float)) :
  (forall row, In row rows -> snd row <> []) ->
  forall matched, exists ds, match_predictions thresh rows matched = Returned ds.
Proof.
  induction rows as [|[conf ious] rows IH]; intros H matched; simpl; [eauto|].
  destruct ious as [|x ious]; [now specialize (H _ (or_introl eq_refl))|].
  cbn [np_argmax bind].
  assert (H' : forall row, In row rows -> snd row <> []) by (intros; apply H; now right).
  destruct (_ && _).
  - destruct (IH H' (assign matched (argmax_scan x 0 1 ious) true)) as [ds ->]. simpl. eauto.
  - destruct (IH H' matched) as [ds ->]. simpl. eauto.
Qed.

Lemma image_detections_returns (self : DPPModel) (im_lab : option (list Label))
  (im_pred : option (list (Pred * list float))) :
  im_lab <> Some [] -> exists ds, image_detections self im_lab im_pred = Returned ds.
Proof.
  intros H. destruct im_pred as [im_pred|]; [|simpl; eauto].
  destruct im_lab as [im_lab|]; [|simpl; eauto].
  unfold image_detections. apply match_predictions_returns.
  intros [conf ious] Hin. apply in_combine_r in Hin. apply in_map_iff in Hin.
  destruct Hin as (r & <- & _). simpl. unfold iou_row.
  destruct im_lab; [congruence | discriminate].
Qed.

Lemma yolo_map_returns (self : DPPModel) (labels : list (option (list Label)))
  (preds : list (option (list (Pred * list float)))) :
  Forall (fun l => l <> Some []) labels ->
  exists ap, yolo_map self labels preds = Returned ap.
Proof.
  intros H. unfold yolo_map.
  assert (Hd : exists ds, all_detections self (combine labels preds) = Returned ds).
  { revert preds. induction H as [|l labels Hl H IH]; intros [|p preds]; simpl; eauto.
    destruct (image_detections_returns self l p Hl) as [ds ->].
    destruct (IH preds) as [ds' ->]. simpl. eauto. }
  destruct Hd as [ds ->]. simpl. destruct ds; eauto.
Qed.

Lemma convert_and_filter_labels (expit np_exp : float -> float) (self : DPPModel)
  (fuel : nat) (test_label : list (float * float * XYWH)) (test_pred : list (list float))
  (im : option (list Label) * option (list (Pred * list float))) :
  convert_and_filter expit np_exp self fuel test_label test_pred = Returned im ->
  fst im <> Some [].
Proof.
  unfold convert_and_filter. intros H. bind_inv H. bind_inv H. injection H as <-. simpl.
  rewrite np_any_map, boolean_index_map.
  destruct (existsb _ _) eqn:E; simpl; [|discriminate].
  apply existsb_exists in E. destruct E as (l & Hl & Ho).
  intros Hnil. injection Hnil as Hnil.
  assert (Hin : In l (filter (fun l => (l_obj l =? 1)%float)
                             (map (label_of_row) (fst a)))) by (apply filter_In; auto).
  rewrite Hnil in Hin. destruct Hin.
Qed.

Lemma mapM_Forall {A B : Type} (f : A -> outcome B) (P : B -> Prop) (l : list A)
  (out : list B) :
  (forall a b, f a = Returned b -> P b) -> mapM f l = Returned out -> Forall P out.
Proof.
  intros Hf H. apply mapM_Forall2 in H.
  induction H as [|a b l out Hab H IH]; constructor; eauto.
Qed.

(** X24: once the conversion and the filter have returned for every image,
    the evaluation returns a value: the labels it is given are [None] or
    have a row, so no arg-max is taken over nothing. *)
Theorem evaluation_returns_once_images_are_filtered (expit np_exp : float -> float)
  (self : DPPModel) (fuel : nat)
  (all_y : list (list (float * float * XYWH))) (all_predictions : list (list (list float)))
  (images : list (option (list Label) * option (list (Pred * list float)))) :
  mapM (fun i =>
          test_label <- index all_y i ;;
          test_pred <- index all_predictions i ;;
          convert_and_filter expit np_exp self fuel test_label test_pred)
       (seq 0 (length all_y)) = Returned images ->
  Forall (fun l => l <> Some []) (map fst images) /\
  exists ap,
    yolo_map self (map fst images) (map snd images) = Returned ap /\
    compute_full_test_accuracy expit np_exp self fuel all_y all_predictions = Returned ap.
Proof.
  intros H.
  assert (HF : Forall (fun l => l <> Some []) (map fst images)).
  { apply Forall_map. eapply mapM_Forall; [|exact H].
    intros i im Him. bind_inv Him. bind_inv Him.
    eapply convert_and_filter_labels; eassumption. }
  split; [assumption|].
  destruct (yolo_map_returns self _ (map snd images) HF) as [ap Hap].
  exists ap. split; [assumption|].
  unfold compute_full_test_accuracy. rewrite H. exact Hap.
Qed.

Lemma evaluation_returns_once_images_are_filtered_witness :
  let self := mkModel 1 1 2 [(1, 2); (3, 1)]%float 0.1 0.3 0.5 100 50 0 0 in
  let expit := fun t => (1 / (1 + t * t))%float in
  let np_exp := fun t => (1 + t * t)%float in
  let all_y := [[(1, 1, mkXYWH 0.5 0.5 1 1)]]%float in
  let all_predictions := [[[0; 1; 0; 1; 2; 1; 0; 1; 0; 3; 1]%float]] in
  let images :=
    [(Some [mkLabel 1 1 (mkBox 0 0 100 50)],
      Some [(mkPred 50 (-75) 150 125 0.2, [1])])]%float in
  Forall (fun l => l <> Some []) (map fst images) /\
  exists ap,
    yolo_map self (map fst images) (map snd images) = Returned ap /\
    compute_full_test_accuracy expit np_exp self 1 all_y all_predictions = Returned ap.
Proof.
  intros self expit np_exp all_y all_predictions images.
  apply (evaluation_returns_once_images_are_filtered expit np_exp self 1 all_y
           all_predictions images).
  vm_compute. reflexivity.
Defined.
